(** * dlt-connect-libs: the HEC client and the abort handle

    A shallow embedding of
    - [packages/hec-client/src/client.ts] (class [HecClient]), and
    - the abortable-task helpers of [@splunkdlt/async-tasks]
      ([ABORT], [DefaultAbortPromise], [AbortHandle]),
    with the properties of the specification stated over it.

    Conventions.  JavaScript numbers that the code only ever uses as
    counters, lengths and thresholds are integers of [Z] (exact below 2^53).
    Objects with identity (flush handles, abort promises, clients, HTTP
    agents) live in finite maps keyed by a reference; a [Set] of such
    objects is a [gset] of references.  An [async] function is cut at its
    [await]s: one definition for the synchronous prefix, one for each
    resumption.  Logging ([debug], [info], [warn], [error]) has no effect
    on the state and is left out. *)

From Stdlib Require Import ZArith Lia.
From stdpp Require Import base numbers list strings pretty gmap sets.

Local Open Scope Z_scope.

(* ===================================================================== *)
(** ** JavaScript values and promise settlements *)
(* ===================================================================== *)

Module Js.

(** The values the modelled code throws, compares and passes around. *)
#[warnings="-register-all"]
Inductive JsVal : Type :=
  | JUndefined
  | JNull
  | JBool (b : bool)
  | JNum (n : Z)
  | JStr (s : string)
  | JSym (description : string)            (* Symbol(description) *)
  | JErr (message : string)                (* new Error(message) *)
  | JObj (props : list (string * JsVal)).  (* own enumerable properties, in order *)

(** [v instanceof Error] *)
Definition isError (v : JsVal) : bool :=
  match v with JErr _ => true | _ => false end.

(** ToBoolean *)
Definition truthy (v : JsVal) : bool :=
  match v with
  | JUndefined | JNull => false
  | JBool b => b
  | JNum n => negb (n =? 0)
  | JStr s => negb (String.eqb s "")
  | JSym _ | JErr _ | JObj _ => true
  end.

(** [o.k] on a plain object: the property's value, [undefined] when absent. *)
Fixpoint getProp (k : string) (props : list (string * JsVal)) : JsVal :=
  match props with
  | [] => JUndefined
  | (k', v) :: rest => if String.eqb k k' then v else getProp k rest
  end.

(** [Object.keys(o)] *)
Definition keys (props : list (string * JsVal)) : list string := map fst props.

(** How a promise settles. *)
Inductive Settlement (A : Type) : Type :=
  | Fulfilled (value : A)
  | Rejected (reason : JsVal).
Arguments Fulfilled {A} value.
Arguments Rejected {A} reason.

(** What a synchronous call does: return normally or throw; either way the
    state reached is kept. *)
Inductive Completion (S : Type) : Type :=
  | Normal (s : S)
  | Throw (e : JsVal) (s : S).
Arguments Normal {S} s.
Arguments Throw {S} e s.

Definition stateOf {S : Type} (r : Completion S) : S :=
  match r with Normal s => s | Throw _ s => s end.

Definition bindC {S : Type} (r : Completion S) (k : S -> Completion S) : Completion S :=
  match r with Normal s => k s | Throw e s => Throw e s end.

End Js.
Import Js.

(* ===================================================================== *)
(** ** async-tasks: ABORT, DefaultAbortPromise, AbortHandle *)
(* ===================================================================== *)

Module AsyncTasks.

(** [export const ABORT = Symbol('[[ABORT]]')] *)
Definition ABORT : JsVal := JSym "[[ABORT]]".

(** [class DefaultAbortPromise]: the flag, the promise [p] (pending, or
    rejected with a reason; it never fulfils) and whether [triggerAbort] is
    still the closure that rejects (it replaces itself by a no-op). *)
Record DefaultAbortPromise : Type := mkAbortPromise {
  dap_aborted : bool;
  dap_p : option JsVal;
  dap_armed : bool;
}.

(** [new DefaultAbortPromise()] *)
Definition newAbortPromise : DefaultAbortPromise :=
  {| dap_aborted := false; dap_p := None; dap_armed := true |}.

(** [DefaultAbortPromise.abort()] *)
Definition dap_abort (a : DefaultAbortPromise) : DefaultAbortPromise :=
  if dap_armed a
  then {| dap_aborted := true;
          dap_p := match dap_p a with None => Some ABORT | Some r => Some r end;
          dap_armed := false |}
  else a.

(** [class AbortHandle], together with the store its abort promises live
    in.  [running] and [invoked] are bookkeeping of the runtime, not fields
    of the class: the tokens of the [withAbort] calls whose closure has not
    exited yet, and the tokens closures were invoked with, latest first. *)
Record AbortHandle : Type := mkAbortHandle {
  aborted : bool;
  handles : gset nat;
  store : gmap nat DefaultAbortPromise;
  nextRef : nat;
  running : gset nat;
  invoked : list nat;
}.

(** [new AbortHandle()] *)
Definition newAbortHandle : AbortHandle :=
  {| aborted := false; handles := ∅; store := ∅; nextRef := 0%nat;
     running := ∅; invoked := [] |}.

(** [get size()] *)
Definition size_ (h : AbortHandle) : nat := size (handles h).

(** [AbortHandle.abort]: set the flag, abort every member, clear the set. *)
Definition abort (h : AbortHandle) : AbortHandle :=
  {| aborted := true;
     handles := ∅;
     store := set_fold (fun r st => alter dap_abort r st) (store h) (handles h);
     nextRef := nextRef h;
     running := running h;
     invoked := invoked h |}.

(** What the caller of [withAbort] holds once the synchronous part is over:
    an already rejected promise, or a promise that waits for the closure,
    which was invoked with the token [tok]. *)
Inductive WithAbortCall : Type :=
  | RejectedAtOnce (reason : JsVal)
  | Awaiting (tok : nat).

(** [AbortHandle.withAbort], up to and including the call [fn(abort)]. *)
Definition withAbort (h : AbortHandle) : AbortHandle * WithAbortCall :=
  if aborted h then (h, RejectedAtOnce ABORT)
  else
    let tok := nextRef h in
    ({| aborted := aborted h;
        handles := {[tok]} ∪ handles h;
        store := <[tok := newAbortPromise]> (store h);
        nextRef := S tok;
        running := {[tok]} ∪ running h;
        invoked := tok :: invoked h |},
     Awaiting tok).

(** [AbortHandle.withAbort], the [finally] block: it runs when [fn(abort)]
    threw or the promise it returned settled; the outcome passes through. *)
Definition withAbort_finally (h : AbortHandle) (tok : nat) : AbortHandle :=
  {| aborted := aborted h;
     handles := handles h ∖ {[tok]};
     store := store h;
     nextRef := nextRef h;
     running := running h ∖ {[tok]};
     invoked := invoked h |}.

(** What can happen to a handle: its public members are called (by the
    closures themselves or by anyone else), and closures exit. *)
Inductive Op : Type :=
  | OpAbort
  | OpWithAbort
  | OpExit (tok : nat) (outcome : Settlement JsVal).

Definition step (h : AbortHandle) (op : Op) : AbortHandle :=
  match op with
  | OpAbort => abort h
  | OpWithAbort => fst (withAbort h)
  | OpExit tok _ =>
      if decide (tok ∈ running h) then withAbort_finally h tok else h
  end.

Definition exec (ops : list Op) (h : AbortHandle) : AbortHandle :=
  fold_left step ops h.

(** What every handle built by its own operations satisfies: the set holds
    only tokens of closures still running, references are handed out in
    increasing order, and a triggered handle holds no token. *)
Definition consistent (h : AbortHandle) : Prop :=
  handles h ⊆ running h
  /\ (forall x, x ∈ running h -> (x < nextRef h)%nat)
  /\ (aborted h = true -> handles h = ∅).

(** A token whose closure has exited: it is no longer running, and no
    later call hands its reference out again. *)
Definition retired (tok : nat) (h : AbortHandle) : Prop :=
  (tok ∉ running h) /\ (tok < nextRef h)%nat.

End AsyncTasks.

(* ===================================================================== *)
(** ** hec-client: configuration, counters, aggregates *)
(* ===================================================================== *)

Module Hec.

(** [SerializedHecMsg] is a [Buffer]. *)
Definition SerializedHecMsg : Type := list Byte.byte.

(** [buffer.length] *)
Definition byteLength (m : SerializedHecMsg) : Z := Z.of_nat (length m).

(** [new BufferList(msgs).length] *)
Definition totalLength (msgs : list SerializedHecMsg) : Z :=
  foldr (fun m acc => byteLength m + acc) 0 msgs.

(** [WaitTime] of async-tasks: a number of milliseconds or a function of
    the attempt. *)
Inductive WaitTime : Type :=
  | WaitConst (ms : Z)
  | WaitFn (f : Z -> Z).

(** Modelled from the spec: [resolveWaitTime] of async-tasks is not among
    the sources.  "A resolve helper accepts either a literal number (treat
    as constant) or a strategy function and yields the per-attempt wait." *)
Definition resolveWaitTime (w : WaitTime) (attempt : Z) : Z :=
  match w with
  | WaitConst ms => ms
  | WaitFn f => f attempt
  end.

(** [CookedHecConfig]: the fields [client.ts] reads.  The numeric limits
    are finite; a cap of [Infinity] is not represented. *)
Record CookedHecConfig : Type := mkConfig {
  url : string;
  token : option string;
  userAgent : string;
  validateCertificate : bool;
  timeout : Z;
  maxSockets : Z;
  requestKeepAlive : bool;
  defaultMetadata : JsVal;
  defaultFields : JsVal;
  multipleMetricFormatEnabled : bool;
  gzip : bool;
  maxQueueSize : Z;
  maxQueueEntries : Z;
  flushTime : option Z;
  maxRetries : Z;
  retryWaitTime : WaitTime;
}.

(** [const initialCounters] and the type of [this.counters]. *)
Record Counters : Type := mkCounters {
  errorCount : Z;
  retryCount : Z;
  queuedMessages : Z;
  sentMessages : Z;
  queuedBytes : Z;
  sentBytes : Z;
  transferredBytes : Z;
}.

Definition initialCounters : Counters :=
  {| errorCount := 0; retryCount := 0; queuedMessages := 0; sentMessages := 0;
     queuedBytes := 0; sentBytes := 0; transferredBytes := 0 |}.

(** Modelled from the spec: [AggregateMetric] of stats-collector is not
    among the sources.  "An aggregate observes numeric samples and on
    flush(prefix) returns {prefix_count, prefix_sum, prefix_min, prefix_max,
    prefix_avg}, then resets."  The samples are kept, latest first; the
    average is the quotient of sum and count and is not stored. *)
Record AggregateMetric : Type := mkAggregate { samples : list Z }.

Record AggregateStats : Type := mkAggregateStats {
  agg_count : Z;
  agg_sum : Z;
  agg_min : option Z;
  agg_max : option Z;
}.

Definition newAggregate : AggregateMetric := {| samples := [] |}.

Definition agg_push (a : AggregateMetric) (x : Z) : AggregateMetric :=
  {| samples := x :: samples a |}.

Definition agg_flush (a : AggregateMetric) : AggregateStats * AggregateMetric :=
  ({| agg_count := Z.of_nat (length (samples a));
      agg_sum := foldr Z.add 0 (samples a);
      agg_min := match samples a with
                 | [] => None
                 | x :: xs => Some (foldr Z.min x xs)
                 end;
      agg_max := match samples a with
                 | [] => None
                 | x :: xs => Some (foldr Z.max x xs)
                 end |},
   newAggregate).

(** [this.aggregates] *)
Record Aggregates : Type := mkAggregates {
  requestDuration : AggregateMetric;
  batchSize : AggregateMetric;
  batchSizeBytes : AggregateMetric;
  batchSizeCompressed : AggregateMetric;
}.

Definition newAggregates : Aggregates :=
  {| requestDuration := newAggregate; batchSize := newAggregate;
     batchSizeBytes := newAggregate; batchSizeCompressed := newAggregate |}.

(* --------------------------------------------------------------------- *)
(** *** One [sendToHec] activation *)
(* --------------------------------------------------------------------- *)

(** Where an activation of [sendToHec] stands: at one of its [await]s, or
    over, its promise settled. *)
Inductive SendPhase : Type :=
  | AwaitCompress                       (* await compressBody(rawBody) *)
  | AwaitFetch                          (* await fetch(this.config.url, ...) *)
  | AwaitSleep (retryDelay : Z)         (* await sleep(retryDelay) *)
  | Settled (r : Settlement unit).

(** The locals of the activation. *)
Record SendTask : Type := mkSendTask {
  msgs : list SerializedHecMsg;
  rawBodySize : Z;
  bodySize : Z;
  attempt : Z;
  phase : SendPhase;
}.

(** A [FlushHandle]: the activation behind its [promise], and the
    [aborted] flag of its [AbortController]'s signal. *)
Record FlushHandle : Type := mkFlushHandle {
  task : SendTask;
  signalAborted : bool;
}.

(** [FlushHandle.cancel()] *)
Definition cancel (f : FlushHandle) : FlushHandle :=
  {| task := task f; signalAborted := true |}.

(** [class HecClient].  [flushHandles] is the store the flush handles live
    in and [nextHandle] the next free reference; [httpAgent] is a
    reference to an agent (see [Store] below). *)
Record HecClient : Type := mkClient {
  config : CookedHecConfig;
  active : bool;
  queue : list SerializedHecMsg;
  queueSizeBytes : Z;
  flushTimer : option Z;               (* the armed timeout and its delay *)
  activeFlushing : gset nat;
  httpAgent : nat;
  counters : Counters;
  aggregates : Aggregates;
  flushHandles : gmap nat FlushHandle;
  nextHandle : nat;
}.

(** Field updates, written out once. *)
Definition setCounters (c : HecClient) (k : Counters) : HecClient :=
  {| config := config c; active := active c; queue := queue c;
     queueSizeBytes := queueSizeBytes c; flushTimer := flushTimer c;
     activeFlushing := activeFlushing c; httpAgent := httpAgent c;
     counters := k; aggregates := aggregates c;
     flushHandles := flushHandles c; nextHandle := nextHandle c |}.

Definition setAggregates (c : HecClient) (a : Aggregates) : HecClient :=
  {| config := config c; active := active c; queue := queue c;
     queueSizeBytes := queueSizeBytes c; flushTimer := flushTimer c;
     activeFlushing := activeFlushing c; httpAgent := httpAgent c;
     counters := counters c; aggregates := a;
     flushHandles := flushHandles c; nextHandle := nextHandle c |}.

Definition setQueue (c : HecClient) (q : list SerializedHecMsg) (n : Z) : HecClient :=
  {| config := config c; active := active c; queue := q;
     queueSizeBytes := n; flushTimer := flushTimer c;
     activeFlushing := activeFlushing c; httpAgent := httpAgent c;
     counters := counters c; aggregates := aggregates c;
     flushHandles := flushHandles c; nextHandle := nextHandle c |}.

Definition setFlushTimer (c : HecClient) (t : option Z) : HecClient :=
  {| config := config c; active := active c; queue := queue c;
     queueSizeBytes := queueSizeBytes c; flushTimer := t;
     activeFlushing := activeFlushing c; httpAgent := httpAgent c;
     counters := counters c; aggregates := aggregates c;
     flushHandles := flushHandles c; nextHandle := nextHandle c |}.

Definition setActive (c : HecClient) (b : bool) : HecClient :=
  {| config := config c; active := b; queue := queue c;
     queueSizeBytes := queueSizeBytes c; flushTimer := flushTimer c;
     activeFlushing := activeFlushing c; httpAgent := httpAgent c;
     counters := counters c; aggregates := aggregates c;
     flushHandles := flushHandles c; nextHandle := nextHandle c |}.

Definition setHttpAgent (c : HecClient) (a : nat) : HecClient :=
  {| config := config c; active := active c; queue := queue c;
     queueSizeBytes := queueSizeBytes c; flushTimer := flushTimer c;
     activeFlushing := activeFlushing c; httpAgent := a;
     counters := counters c; aggregates := aggregates c;
     flushHandles := flushHandles c; nextHandle := nextHandle c |}.

Definition setFlushes (c : HecClient) (s : gset nat) (hs : gmap nat FlushHandle)
    (n : nat) : HecClient :=
  {| config := config c; active := active c; queue := queue c;
     queueSizeBytes := queueSizeBytes c; flushTimer := flushTimer c;
     activeFlushing := s; httpAgent := httpAgent c;
     counters := counters c; aggregates := aggregates c;
     flushHandles := hs; nextHandle := n |}.

(* --------------------------------------------------------------------- *)
(** *** [sendToHec] *)
(* --------------------------------------------------------------------- *)

(** [response.ok] of node-fetch: the status is one of 200..299. *)
Definition responseOk (status : Z) : bool := (200 <=? status) && (status <? 300).

(** What resumes an activation: the awaited promise settled.  [Responded]
    carries [response.status] and [Date.now() - requestStart]. *)
Inductive Resume : Type :=
  | Compressed (body : list Byte.byte)
  | CompressFailed (e : JsVal)
  | Responded (status : Z) (duration : Z)
  | FetchFailed (e : JsVal)
  | Slept.

(** The [headers] object of the request. *)
Definition requestHeaders (cfg : CookedHecConfig) (size : Z) : list (string * string) :=
  [("Content-Length", pretty size); ("User-Agent", userAgent cfg)]
  ++ match token cfg with
     | Some tk => [("Authorization", "Splunk " +:+ tk)]
     | None => []
     end
  ++ (if gzip cfg then [("Content-Encoding", "gzip")] else []).

Definition setPhase (t : SendTask) (p : SendPhase) : SendTask :=
  {| msgs := msgs t; rawBodySize := rawBodySize t; bodySize := bodySize t;
     attempt := attempt t; phase := p |}.

(** The head of [while (true)]: [attempt++], and [fetch] is called. *)
Definition nextAttempt (t : SendTask) : SendTask :=
  {| msgs := msgs t; rawBodySize := rawBodySize t; bodySize := bodySize t;
     attempt := attempt t + 1; phase := AwaitFetch |}.

Definition incErrorCount (k : Counters) : Counters :=
  {| errorCount := errorCount k + 1; retryCount := retryCount k;
     queuedMessages := queuedMessages k; sentMessages := sentMessages k;
     queuedBytes := queuedBytes k; sentBytes := sentBytes k;
     transferredBytes := transferredBytes k |}.

Definition incRetryCount (k : Counters) : Counters :=
  {| errorCount := errorCount k; retryCount := retryCount k + 1;
     queuedMessages := queuedMessages k; sentMessages := sentMessages k;
     queuedBytes := queuedBytes k; sentBytes := sentBytes k;
     transferredBytes := transferredBytes k |}.

Definition addSent (k : Counters) (n raw wire : Z) : Counters :=
  {| errorCount := errorCount k; retryCount := retryCount k;
     queuedMessages := queuedMessages k; sentMessages := sentMessages k + n;
     queuedBytes := queuedBytes k; sentBytes := sentBytes k + raw;
     transferredBytes := transferredBytes k + wire |}.

Definition addQueued (k : Counters) (len : Z) : Counters :=
  {| errorCount := errorCount k; retryCount := retryCount k;
     queuedMessages := queuedMessages k + 1; sentMessages := sentMessages k;
     queuedBytes := queuedBytes k + len; sentBytes := sentBytes k;
     transferredBytes := transferredBytes k |}.

(** The [catch (e)] block.  [e] is only logged.  When neither [if] throws
    or sleeps, control leaves the block and the loop goes round again. *)
Definition onError (c : HecClient) (sigAborted : bool) (t : SendTask)
    : HecClient * SendTask :=
  let c := setCounters c (incErrorCount (counters c)) in
  if sigAborted then (c, setPhase t (Settled (Rejected (JErr "Aborted"))))
  else if attempt t <=? maxRetries (config c)
  then (c, setPhase t (AwaitSleep (resolveWaitTime (retryWaitTime (config c)) (attempt t))))
  else (c, nextAttempt t).

(** From the end of [const body = ...] to the first [fetch]. *)
Definition afterBody (c : HecClient) (t : SendTask) (size : Z) : HecClient * SendTask :=
  let a := aggregates c in
  let a := {| requestDuration := requestDuration a;
              batchSize := agg_push (batchSize a) (Z.of_nat (length (msgs t)));
              batchSizeBytes := agg_push (batchSizeBytes a) (rawBodySize t);
              batchSizeCompressed :=
                if gzip (config c) then agg_push (batchSizeCompressed a) size
                else batchSizeCompressed a |} in
  (setAggregates c a,
   nextAttempt {| msgs := msgs t; rawBodySize := rawBodySize t; bodySize := size;
                  attempt := 0; phase := phase t |}).

(** [sendToHec(msgs, abortSignal)] up to its first [await]. *)
Definition sendToHec (c : HecClient) (batch : list SerializedHecMsg)
    : HecClient * SendTask :=
  let t := {| msgs := batch; rawBodySize := totalLength batch;
              bodySize := totalLength batch; attempt := 0;
              phase := AwaitCompress |} in
  if gzip (config c) then (c, t) else afterBody c t (totalLength batch).

(** [sendToHec] from one [await] to the next (or to its end).
    [sigAborted] is [abortSignal.aborted] as read during this stretch.
    The [await response.text()] under [debug.enabled] only feeds the log
    and is not a separate phase here. *)
Definition sendToHec_resume (c : HecClient) (sigAborted : bool) (t : SendTask)
    (ev : Resume) : HecClient * SendTask :=
  match phase t, ev with
  | AwaitCompress, Compressed body => afterBody c t (byteLength body)
  | AwaitCompress, CompressFailed e => (c, setPhase t (Settled (Rejected e)))
  | AwaitFetch, Responded status duration =>
      let a := aggregates c in
      let c := setAggregates c
                 {| requestDuration := agg_push (requestDuration a) duration;
                    batchSize := batchSize a;
                    batchSizeBytes := batchSizeBytes a;
                    batchSizeCompressed := batchSizeCompressed a |} in
      if responseOk status
      then (setCounters c (addSent (counters c) (Z.of_nat (length (msgs t)))
                             (rawBodySize t) (bodySize t)),
            setPhase t (Settled (Fulfilled tt)))
      else onError c sigAborted t
  | AwaitFetch, FetchFailed _ => onError c sigAborted t
  | AwaitSleep _, Slept =>
      if sigAborted then (c, setPhase t (Settled (Rejected (JErr "Aborted"))))
      else (setCounters c (incRetryCount (counters c)), nextAttempt t)
  | _, _ => (c, t)
  end.

(** An attempt failed: [fetch] rejected, or the response is not [ok]. *)
Definition failedAttempt (ev : Resume) : bool :=
  match ev with
  | FetchFailed _ => true
  | Responded status _ => negb (responseOk status)
  | _ => false
  end.

(** One activation followed through a list of resumptions, the signal not
    aborted meanwhile. *)
Fixpoint runSend (c : HecClient) (t : SendTask) (evs : list Resume)
    : HecClient * SendTask :=
  match evs with
  | [] => (c, t)
  | ev :: rest =>
      let '(c', t') := sendToHec_resume c false t ev in runSend c' t' rest
  end.

(* --------------------------------------------------------------------- *)
(** *** Flushing *)
(* --------------------------------------------------------------------- *)

(** The promise [flushInternal] returns. *)
Inductive FlushPromise : Type :=
  | AlreadyResolved                     (* Promise.resolve() *)
  | PromiseOf (h : nat).                (* the promise of flush handle h *)

(** [flushInternal] *)
Definition flushInternal (c : HecClient) : HecClient * FlushPromise :=
  let c := match flushTimer c with
           | Some _ => setFlushTimer c None
           | None => c
           end in
  match queue c with
  | [] => (c, AlreadyResolved)
  | _ :: _ =>
      let batch := queue c in
      let c := setQueue c [] 0 in
      let '(c, t) := sendToHec c batch in
      let h := nextHandle c in
      (setFlushes c ({[h]} ∪ activeFlushing c)
         (<[h := {| task := t; signalAborted := false |}]> (flushHandles c))
         (S h),
       PromiseOf h)
  end.

(** The activation behind handle [h] is resumed with [ev]; when that
    settles its promise, [removeFromActive] runs. *)
Definition resume (c : HecClient) (h : nat) (ev : Resume) : HecClient :=
  match flushHandles c !! h with
  | None => c
  | Some f =>
      match phase (task f) with
      | Settled _ => c
      | _ =>
          let '(c', t') := sendToHec_resume c (signalAborted f) (task f) ev in
          let hs := <[h := {| task := t'; signalAborted := signalAborted f |}]>
                      (flushHandles c') in
          match phase t' with
          | Settled _ => setFlushes c' (activeFlushing c' ∖ {[h]}) hs (nextHandle c')
          | _ => setFlushes c' (activeFlushing c') hs (nextHandle c')
          end
      end
  end.

(** [scheduleFlush] *)
Definition scheduleFlush (c : HecClient) : HecClient :=
  if negb (maxQueueEntries (config c) =? -1)
     && (Z.of_nat (length (queue c)) >? maxQueueEntries (config c))
  then fst (flushInternal c)
  else match flushTimer c with
       | None => setFlushTimer c (Some (default 0 (flushTime (config c))))
       | Some _ => c
       end.

(** The callback of the timer [scheduleFlush] arms; it can only run while
    that timer is the one in [flushTimer]. *)
Definition timerFires (c : HecClient) : HecClient :=
  match flushTimer c with
  | Some _ => fst (flushInternal c)
  | None => c
  end.

(** [pushSerializedMsg] *)
Definition pushSerializedMsg (c : HecClient) (serialized : SerializedHecMsg)
    : Completion HecClient :=
  if negb (active c) then Throw (JErr "HEC client has been shut down") c
  else
    let c := setCounters c (addQueued (counters c) (byteLength serialized)) in
    let c := if queueSizeBytes c + byteLength serialized >? maxQueueSize (config c)
             then fst (flushInternal c) else c in
    let c := setQueue c (queue c ++ [serialized])
               (queueSizeBytes c + byteLength serialized) in
    Normal (scheduleFlush c).

(** [flush]: the promises [Promise.all] waits for, and the state after the
    call of [flushInternal] among its arguments. *)
Definition flush (c : HecClient) : HecClient * list FlushPromise :=
  let inflight := map PromiseOf (elements (activeFlushing c)) in
  let '(c', p) := flushInternal c in
  (c', inflight ++ [p]).

(** What [flushStats] returns, the status of the HTTP agent apart (that
    is the agent library's). *)
Record Stats : Type := mkStats {
  stats_counters : Counters;
  stats_requestDuration : AggregateStats;
  stats_batchSize : AggregateStats;
  stats_batchSizeBytes : AggregateStats;
  stats_batchSizeCompressed : AggregateStats;
  stats_activeFlushingCount : Z;
  stats_queueSize : Z;
  stats_queueSizeBytes : Z;
}.

(** [flushStats] *)
Definition flushStats (c : HecClient) : Stats * HecClient :=
  let a := aggregates c in
  let stats :=
    {| stats_counters := counters c;
       stats_requestDuration := fst (agg_flush (requestDuration a));
       stats_batchSize := fst (agg_flush (batchSize a));
       stats_batchSizeBytes := fst (agg_flush (batchSizeBytes a));
       stats_batchSizeCompressed := fst (agg_flush (batchSizeCompressed a));
       stats_activeFlushingCount := Z.of_nat (size (activeFlushing c));
       stats_queueSize := Z.of_nat (length (queue c));
       stats_queueSizeBytes := queueSizeBytes c |} in
  let a' := {| requestDuration := snd (agg_flush (requestDuration a));
               batchSize := snd (agg_flush (batchSize a));
               batchSizeBytes := snd (agg_flush (batchSizeBytes a));
               batchSizeCompressed := snd (agg_flush (batchSizeCompressed a)) |} in
  (stats, setCounters (setAggregates c a') initialCounters).

(** [this.activeFlushing.forEach((f) => f.cancel())] *)
Definition cancelAll (c : HecClient) : HecClient :=
  setFlushes c (activeFlushing c)
    (set_fold (fun h hs => alter cancel h hs) (flushHandles c) (activeFlushing c))
    (nextHandle c).

(** [shutdown], after the race (or straight away when it does not wait). *)
Definition shutdown_finish (c : HecClient) : HecClient :=
  if (0 <? size (activeFlushing c))%nat then cancelAll c else c.

(** [shutdown(maxTime)] up to its [await]; the boolean says whether it
    waits for the race of [sleep(maxTime)] and [this.flush()], after which
    [shutdown_finish] runs. *)
Definition shutdown (c : HecClient) (maxTime : option Z) : HecClient * bool :=
  let c := setActive c false in
  match maxTime with
  | Some _ =>
      if (0 <? size (activeFlushing c))%nat || (0 <? length (queue c))%nat
      then (fst (flush c), true)
      else (shutdown_finish c, false)
  | None => (shutdown_finish c, false)
  end.

(* --------------------------------------------------------------------- *)
(** *** Observations and invariants used in the statements *)
(* --------------------------------------------------------------------- *)

(** The batch a flush handle is sending. *)
Definition batchOf (c : HecClient) (h : nat) : option (list SerializedHecMsg) :=
  (fun f => msgs (task f)) <$> flushHandles c !! h.

(** The entries trigger of [scheduleFlush], as the code tests it. *)
Definition entriesTrigger (c : HecClient) : Prop :=
  maxQueueEntries (config c) <> -1
  /\ Z.of_nat (length (queue c)) > maxQueueEntries (config c).

(** [queueSizeBytes] tracks the queue. *)
Definition sizeTracked (c : HecClient) : Prop :=
  queueSizeBytes c = totalLength (queue c).

(** The phase of the send behind a handle. *)
Definition phaseOf (c : HecClient) (h : nat) : option SendPhase :=
  (fun f => phase (task f)) <$> flushHandles c !! h.

(** The state [pushSerializedMsg] has built when it calls [scheduleFlush]. *)
Definition appended (c : HecClient) (m : SerializedHecMsg) : HecClient :=
  let c1 := setCounters c (addQueued (counters c) (byteLength m)) in
  let c2 := if queueSizeBytes c1 + byteLength m >? maxQueueSize (config c1)
            then fst (flushInternal c1) else c1 in
  setQueue c2 (queue c2 ++ [m]) (queueSizeBytes c2 + byteLength m).

(** The enqueueing side of a client: what sends, cancellations and stats
    never touch. *)
Definition sameQueueing (c c' : HecClient) : Prop :=
  queue c' = queue c
  /\ queueSizeBytes c' = queueSizeBytes c
  /\ active c' = active c
  /\ config c' = config c
  /\ flushTimer c' = flushTimer c.

(* --------------------------------------------------------------------- *)
(** *** The push operations *)
(* --------------------------------------------------------------------- *)

(** [types.ts] and [serialize.ts] are not among the sources: the record
    types and the three serializers are parameters.  [MetricsRest] is what
    is left of a [MultiMetrics] without its [measurements], and [mkMetric]
    builds [{ ...rest, name, value }]. *)
Section Push.

Variables Event Metric MetricsRest MetricValue : Type.

Record MultiMetrics : Type := mkMultiMetrics {
  measurements : list (string * option MetricValue);   (* None: null or undefined *)
  rest : MetricsRest;
}.

Variable serializeEvent : Event -> JsVal -> JsVal -> SerializedHecMsg.
Variable serializeMetric : Metric -> JsVal -> JsVal -> SerializedHecMsg.
Variable serializeMetrics : MultiMetrics -> JsVal -> JsVal -> SerializedHecMsg.
Variable mkMetric : MetricsRest -> string -> MetricValue -> Metric.

(** The argument of [push]: [Event | Metric]. *)
Inductive Msg : Type :=
  | AnEvent (e : Event)
  | AMetric (m : Metric).

(** [isMetric]: a [Metric] has a [name], an [Event] has none. *)
Definition isMetric (msg : Msg) : bool :=
  match msg with AMetric _ => true | AnEvent _ => false end.

(** [pushEvent] *)
Definition pushEvent (c : HecClient) (event : Event) : Completion HecClient :=
  let serialized :=
    serializeEvent event (defaultMetadata (config c)) (defaultFields (config c)) in
  pushSerializedMsg c serialized.

(** [pushMetric] *)
Definition pushMetric (c : HecClient) (metric : Metric) : Completion HecClient :=
  let serialized :=
    serializeMetric metric (defaultMetadata (config c)) (defaultFields (config c)) in
  pushSerializedMsg c serialized.

(** The [for ... of Object.entries(measurements)] loop of [pushMetrics]. *)
Fixpoint pushEach (c : HecClient) (r : MetricsRest)
    (entries : list (string * option MetricValue)) : Completion HecClient :=
  match entries with
  | [] => Normal c
  | (name, Some value) :: tl =>
      bindC (pushMetric c (mkMetric r name value)) (fun c' => pushEach c' r tl)
  | (_, None) :: tl => pushEach c r tl
  end.

(** [pushMetrics] *)
Definition pushMetrics (c : HecClient) (metrics : MultiMetrics) : Completion HecClient :=
  if multipleMetricFormatEnabled (config c)
  then
    let serialized :=
      serializeMetrics metrics (defaultMetadata (config c)) (defaultFields (config c)) in
    pushSerializedMsg c serialized
  else pushEach c (rest metrics) (measurements metrics).

(** [push]: [isMetric(msg) ? this.pushMetric(msg) : this.pushEvent(msg)] *)
Definition push (c : HecClient) (msg : Msg) : Completion HecClient :=
  match msg with
  | AMetric m => pushMetric c m
  | AnEvent e => pushEvent c e
  end.

(** Everything that can happen to one client: its methods are called, the
    idle timer fires, an in-flight send is resumed. *)
Inductive ClientOp : Type :=
  | OpPush (msg : Msg)
  | OpPushEvent (e : Event)
  | OpPushMetric (m : Metric)
  | OpPushMetrics (mm : MultiMetrics)
  | OpFlush
  | OpFlushInternal
  | OpTimerFires
  | OpResume (h : nat) (ev : Resume)
  | OpFlushStats
  | OpShutdown (maxTime : option Z)
  | OpShutdownFinish.

Definition clientStep (c : HecClient) (op : ClientOp) : HecClient :=
  match op with
  | OpPush msg => stateOf (push c msg)
  | OpPushEvent e => stateOf (pushEvent c e)
  | OpPushMetric m => stateOf (pushMetric c m)
  | OpPushMetrics mm => stateOf (pushMetrics c mm)
  | OpFlush => fst (flush c)
  | OpFlushInternal => fst (flushInternal c)
  | OpTimerFires => timerFires c
  | OpResume h ev => resume c h ev
  | OpFlushStats => snd (flushStats c)
  | OpShutdown maxTime => fst (shutdown c maxTime)
  | OpShutdownFinish => shutdown_finish c
  end.

Definition clientExec (ops : list ClientOp) (c : HecClient) : HecClient :=
  fold_left clientStep ops c.

End Push.

Arguments measurements {MetricsRest MetricValue} _.
Arguments rest {MetricsRest MetricValue} _.
Arguments mkMultiMetrics {MetricsRest MetricValue} _ _.
Arguments AnEvent {Event Metric} e.
Arguments AMetric {Event Metric} m.
Arguments isMetric {Event Metric} msg.
Arguments pushEvent {Event} serializeEvent c event.
Arguments pushMetric {Metric} serializeMetric c metric.
Arguments pushEach {Metric MetricsRest MetricValue} serializeMetric mkMetric c r entries.
Arguments pushMetrics {Metric MetricsRest MetricValue}
  serializeMetric serializeMetrics mkMetric c metrics.
Arguments push {Event Metric} serializeEvent serializeMetric c msg.
Arguments OpPush {Event Metric MetricsRest MetricValue} msg.
Arguments OpPushEvent {Event Metric MetricsRest MetricValue} e.
Arguments OpPushMetric {Event Metric MetricsRest MetricValue} m.
Arguments OpPushMetrics {Event Metric MetricsRest MetricValue} mm.
Arguments OpFlush {Event Metric MetricsRest MetricValue}.
Arguments OpFlushInternal {Event Metric MetricsRest MetricValue}.
Arguments OpTimerFires {Event Metric MetricsRest MetricValue}.
Arguments OpResume {Event Metric MetricsRest MetricValue} h ev.
Arguments OpFlushStats {Event Metric MetricsRest MetricValue}.
Arguments OpShutdown {Event Metric MetricsRest MetricValue} maxTime.
Arguments OpShutdownFinish {Event Metric MetricsRest MetricValue}.
Arguments clientStep {Event Metric MetricsRest MetricValue}
  serializeEvent serializeMetric serializeMetrics mkMetric c op.
Arguments clientExec {Event Metric MetricsRest MetricValue}
  serializeEvent serializeMetric serializeMetrics mkMetric ops c.



(* --------------------------------------------------------------------- *)
(** *** Construction and [clone] *)
(* --------------------------------------------------------------------- *)

(** The fields of a client as its declaration initialises them. *)
Definition newClient (cfg : CookedHecConfig) (agent : nat) : HecClient :=
  {| config := cfg; active := true; queue := []; queueSizeBytes := 0;
     flushTimer := None; activeFlushing := ∅; httpAgent := agent;
     counters := initialCounters; aggregates := newAggregates;
     flushHandles := ∅; nextHandle := 0%nat |}.

(** [HttpOptions] as the constructor fills them; [rejectUnauthorized] is
    set for an [HttpsAgent] only. *)
Record HttpOptions : Type := mkHttpOptions {
  keepAlive : bool;
  opt_maxSockets : Z;
  opt_timeout : Z;
  rejectUnauthorized : option bool;
}.

Inductive Agent : Type :=
  | HttpAgent (o : HttpOptions)
  | HttpsAgent (o : HttpOptions).

(** The objects with identity: clients and agents (connection pools). *)
Record Store : Type := mkStore {
  clients : gmap nat HecClient;
  agents : gmap nat Agent;
  nextClient : nat;
  nextAgent : nat;
}.

(** What a call that returns a value does: return it or throw. *)
Inductive Outcome (A : Type) : Type :=
  | Returns (a : A)
  | Throws (e : JsVal).
Arguments Returns {A} a.
Arguments Throws {A} e.

(** [utils.ts] and [config.ts] are not among the sources.  [deepMerge] and
    [parseHecConfig] (which may throw) are parameters, and so is what
    [removeEmtpyValues] counts as an empty value. *)
Section Clone.

Variable isEmptyValue : JsVal -> bool.
Variable deepMerge : CookedHecConfig -> list (string * JsVal) -> list (string * JsVal).
Variable parseHecConfig : list (string * JsVal) -> Outcome CookedHecConfig.

(** Modelled from the spec: [removeEmtpyValues] of [utils.ts] is not among
    the sources.  It is "dropping empty values": the properties whose value
    is empty are left out, the others kept in order. *)
Definition removeEmtpyValues (o : list (string * JsVal)) : list (string * JsVal) :=
  filter (fun kv => isEmptyValue (snd kv) = false) o.

(** The agent the constructor creates for a configuration. *)
Definition agentFor (cfg : CookedHecConfig) : Agent :=
  let agentOptions :=
    {| keepAlive := requestKeepAlive cfg; opt_maxSockets := maxSockets cfg;
       opt_timeout := timeout cfg; rejectUnauthorized := None |} in
  if String.prefix "https:" (url cfg)
  then HttpsAgent {| keepAlive := keepAlive agentOptions;
                     opt_maxSockets := opt_maxSockets agentOptions;
                     opt_timeout := opt_timeout agentOptions;
                     rejectUnauthorized := Some (validateCertificate cfg) |}
  else HttpAgent agentOptions.

(** [new HecClient(config)]: the reference of the new client. *)
Definition construct (s : Store) (cfg0 : list (string * JsVal)) : Outcome (Store * nat) :=
  match parseHecConfig cfg0 with
  | Throws e => Throws e
  | Returns cfg =>
      let a := nextAgent s in
      let r := nextClient s in
      Returns ({| clients := <[r := newClient cfg a]> (clients s);
                  agents := <[a := agentFor cfg]> (agents s);
                  nextClient := S r;
                  nextAgent := S a |}, r)
  end.

(** [v !== s] for a string [s] *)
Definition differsFrom (v : JsVal) (s : string) : bool :=
  match v with
  | JStr s' => negb (String.eqb s' s)
  | _ => true
  end.

(** [clone(configOverrides)] called on the client [c] at reference [this];
    [None] is [null] or [undefined]. *)
Definition clone (s : Store) (this : nat) (c : HecClient)
    (configOverrides : option (list (string * JsVal))) : Outcome (Store * nat) :=
  match configOverrides with
  | None => Returns (s, this)
  | Some o =>
      if (length (keys (removeEmtpyValues o)) =? 0)%nat then Returns (s, this)
      else if truthy (getProp "url" o) && differsFrom (getProp "url" o) (url (config c))
      then construct s (deepMerge (config c) o)
      else
        match construct s (deepMerge (config c) o) with
        | Throws e => Throws e
        | Returns (s', cloned) =>
            Returns ({| clients := alter (fun k => setHttpAgent k (httpAgent c)) cloned
                                     (clients s');
                        agents := agents s';
                        nextClient := nextClient s';
                        nextAgent := nextAgent s' |}, cloned)
        end
  end.

End Clone.

(** A store is well formed when the references in use are below the next
    free ones; [construct] and [clone] keep it so. *)
Definition storeOk (s : Store) : Prop :=
  forall r c, clients s !! r = Some c ->
    (r < nextClient s)%nat /\ (httpAgent c < nextAgent s)%nat.

(* --------------------------------------------------------------------- *)
(** *** Sample inputs, for the examples *)
(* --------------------------------------------------------------------- *)

Definition sampleConfig : CookedHecConfig :=
  {| url := "http://localhost:8088/services/collector/event/1.0";
     token := Some "11111111-2222-3333-4444-555555555555";
     userAgent := "hec-client";
     validateCertificate := true;
     timeout := 30000;
     maxSockets := 256;
     requestKeepAlive := true;
     defaultMetadata := JObj [];
     defaultFields := JObj [];
     multipleMetricFormatEnabled := false;
     gzip := false;
     maxQueueSize := 512000;
     maxQueueEntries := -1;
     flushTime := Some 0;
     maxRetries := 3;
     retryWaitTime := WaitConst 1 |}.

(** [sampleConfig] with other queue limits and another retry cap. *)
Definition sampleConfigWith (entries size retries : Z) : CookedHecConfig :=
  {| url := url sampleConfig; token := token sampleConfig;
     userAgent := userAgent sampleConfig;
     validateCertificate := validateCertificate sampleConfig;
     timeout := timeout sampleConfig; maxSockets := maxSockets sampleConfig;
     requestKeepAlive := requestKeepAlive sampleConfig;
     defaultMetadata := defaultMetadata sampleConfig;
     defaultFields := defaultFields sampleConfig;
     multipleMetricFormatEnabled := multipleMetricFormatEnabled sampleConfig;
     gzip := gzip sampleConfig;
     maxQueueSize := size; maxQueueEntries := entries;
     flushTime := flushTime sampleConfig;
     maxRetries := retries; retryWaitTime := retryWaitTime sampleConfig |}.

(** Two serialized messages, of 5 and 3 bytes. *)
Definition msgHello : SerializedHecMsg :=
  [Byte.x68; Byte.x65; Byte.x6c; Byte.x6c; Byte.x6f].
Definition msgAbc : SerializedHecMsg := [Byte.x61; Byte.x62; Byte.x63].


(** A store holding one client, built from [sampleConfig]. *)
Definition sampleClient : HecClient := newClient sampleConfig 0.

Definition sampleStore : Store :=
  {| clients := {[ 0%nat := sampleClient ]};
     agents := {[ 0%nat := HttpAgent {| keepAlive := true; opt_maxSockets := 256;
                                        opt_timeout := 30000;
                                        rejectUnauthorized := None |} ]};
     nextClient := 1; nextAgent := 1 |}.

(** Helpers standing in for [utils.ts] and [config.ts] in the examples:
    [null] and [undefined] are the empty values, the merge keeps the
    overrides, and the parser takes the [url] of the object it is given. *)
Definition sampleIsEmpty (v : JsVal) : bool :=
  match v with JUndefined | JNull => true | _ => false end.

Definition sampleMerge (_ : CookedHecConfig) (o : list (string * JsVal))
    : list (string * JsVal) := o.

Definition sampleParse (o : list (string * JsVal)) : Outcome CookedHecConfig :=
  match getProp "url" o with
  | JStr u =>
      Returns {| url := u; token := token sampleConfig;
                 userAgent := userAgent sampleConfig;
                 validateCertificate := validateCertificate sampleConfig;
                 timeout := timeout sampleConfig; maxSockets := maxSockets sampleConfig;
                 requestKeepAlive := requestKeepAlive sampleConfig;
                 defaultMetadata := defaultMetadata sampleConfig;
                 defaultFields := defaultFields sampleConfig;
                 multipleMetricFormatEnabled := multipleMetricFormatEnabled sampleConfig;
                 gzip := gzip sampleConfig;
                 maxQueueSize := maxQueueSize sampleConfig;
                 maxQueueEntries := maxQueueEntries sampleConfig;
                 flushTime := flushTime sampleConfig;
                 maxRetries := maxRetries sampleConfig;
                 retryWaitTime := retryWaitTime sampleConfig |}
  | _ => Throws (JErr "Invalid URL")
  end.

End Hec.

(* ===================================================================== *)
(** ** Runs of a client: what was accepted, what is in flight *)
(* ===================================================================== *)

Module HecRuns.
Import Hec.

(** The promise of a send has settled; it has fulfilled. *)
Definition isSettled (p : SendPhase) : bool :=
  match p with Settled _ => true | _ => false end.

Definition isFulfilled (p : SendPhase) : bool :=
  match p with Settled (Fulfilled _) => true | _ => false end.

(** The send behind a handle has fulfilled. *)
Definition fulfilledAt (c : HecClient) (h : nat) : bool :=
  match phaseOf c h with Some p => isFulfilled p | None => false end.

(** The batches dispatched so far, in the order of their dispatch, and
    every message the client holds or has sent off: the batches, then the
    queue. *)
Definition batches (c : HecClient) : list (list SerializedHecMsg) :=
  map (fun h => default [] (batchOf c h)) (seq 0 (nextHandle c)).

Definition allMessages (c : HecClient) : list SerializedHecMsg :=
  concat (batches c) ++ queue c.

(** The flush handles are those numbered below [nextHandle], and the active
    set holds exactly the handles whose send has not settled. *)
Definition flightsOk (c : HecClient) : Prop :=
  (forall h, h ∈ activeFlushing c <->
             exists f, flushHandles c !! h = Some f
                       /\ isSettled (phase (task f)) = false)
  /\ (forall h, is_Some (flushHandles c !! h) <-> (h < nextHandle c)%nat).

(** The limits as the queue respects them between two operations
    ([queueWithin]) and as a batch respects them ([batchWithin]): more than
    one message only within [maxQueueSize] bytes; under an entries limit,
    no more messages than the limit in the queue, one more in a batch. *)
Definition queueWithin (cfg : CookedHecConfig) (q : list SerializedHecMsg) : Prop :=
  ((length q <= 1)%nat \/ totalLength q <= maxQueueSize cfg)
  /\ (maxQueueEntries cfg <> -1 ->
      Z.of_nat (length q) <= Z.max (maxQueueEntries cfg) 0).

Definition batchWithin (cfg : CookedHecConfig) (b : list SerializedHecMsg) : Prop :=
  ((length b <= 1)%nat \/ totalLength b <= maxQueueSize cfg)
  /\ (maxQueueEntries cfg <> -1 ->
      Z.of_nat (length b) <= Z.max (maxQueueEntries cfg) 0 + 1).

(** What holds of the locals of every send. *)
Definition taskOk (cfg : CookedHecConfig) (t : SendTask) : Prop :=
  msgs t <> []
  /\ rawBodySize t = totalLength (msgs t)
  /\ (gzip cfg = false ->
      bodySize t = totalLength (msgs t) /\ phase t <> AwaitCompress)
  /\ batchWithin cfg (msgs t).

(** The idle timer is armed exactly while messages are queued. *)
Definition timerOk (c : HecClient) : Prop :=
  flushTimer c = None <-> queue c = [].

(** What every client keeps from its construction on. *)
Definition clientOk (c : HecClient) : Prop :=
  sizeTracked c
  /\ queueWithin (config c) (queue c)
  /\ timerOk c
  /\ flightsOk c
  /\ (forall h f, flushHandles c !! h = Some f -> taskOk (config c) (task f)).

(** The resumptions of a send whose attempts fail one after the other,
    each failure followed by the end of the sleep. *)
Definition retries (fails : list Resume) : list Resume :=
  flat_map (fun f => [f; Slept]) fails.

Section Accepted.

Context {Event Metric MetricsRest MetricValue : Type}.
Variable serializeEvent : Event -> JsVal -> JsVal -> SerializedHecMsg.
Variable serializeMetric : Metric -> JsVal -> JsVal -> SerializedHecMsg.
Variable serializeMetrics :
  MultiMetrics MetricsRest MetricValue -> JsVal -> JsVal -> SerializedHecMsg.
Variable mkMetric : MetricsRest -> string -> MetricValue -> Metric.

(** The messages an operation hands to [pushSerializedMsg] under a
    configuration, in order. *)
Definition offeredEach (cfg : CookedHecConfig) (r : MetricsRest)
    (entries : list (string * option MetricValue)) : list SerializedHecMsg :=
  flat_map (fun kv =>
              match snd kv with
              | Some value =>
                  [serializeMetric (mkMetric r (fst kv) value)
                     (defaultMetadata cfg) (defaultFields cfg)]
              | None => []
              end) entries.

Definition offered (cfg : CookedHecConfig)
    (op : ClientOp Event Metric MetricsRest MetricValue) : list SerializedHecMsg :=
  match op with
  | OpPush (AnEvent e) | OpPushEvent e =>
      [serializeEvent e (defaultMetadata cfg) (defaultFields cfg)]
  | OpPush (AMetric m) | OpPushMetric m =>
      [serializeMetric m (defaultMetadata cfg) (defaultFields cfg)]
  | OpPushMetrics mm =>
      if multipleMetricFormatEnabled cfg
      then [serializeMetrics mm (defaultMetadata cfg) (defaultFields cfg)]
      else offeredEach cfg (rest mm) (measurements mm)
  | _ => []
  end.

Definition isShutdown (op : ClientOp Event Metric MetricsRest MetricValue) : bool :=
  match op with OpShutdown _ => true | _ => false end.


(** The messages a sequence of operations gets accepted, on a client that
    is active or not at its start: what is offered until the first
    [shutdown]. *)
Fixpoint accepted (cfg : CookedHecConfig) (act : bool)
    (ops : list (ClientOp Event Metric MetricsRest MetricValue))
    : list SerializedHecMsg :=
  match ops with
  | [] => []
  | op :: ops' =>
      (if act then offered cfg op else [])
      ++ accepted cfg (act && negb (isShutdown op)) ops'
  end.

End Accepted.

(* --------------------------------------------------------------------- *)
(** *** Sample inputs, for the examples *)
(* --------------------------------------------------------------------- *)

(** [sampleConfig] with gzip on. *)
Definition sampleGzipConfig : CookedHecConfig :=
  {| url := url sampleConfig; token := token sampleConfig;
     userAgent := userAgent sampleConfig;
     validateCertificate := validateCertificate sampleConfig;
     timeout := timeout sampleConfig; maxSockets := maxSockets sampleConfig;
     requestKeepAlive := requestKeepAlive sampleConfig;
     defaultMetadata := defaultMetadata sampleConfig;
     defaultFields := defaultFields sampleConfig;
     multipleMetricFormatEnabled := multipleMetricFormatEnabled sampleConfig;
     gzip := true;
     maxQueueSize := maxQueueSize sampleConfig;
     maxQueueEntries := maxQueueEntries sampleConfig;
     flushTime := flushTime sampleConfig;
     maxRetries := maxRetries sampleConfig;
     retryWaitTime := retryWaitTime sampleConfig |}.

(** Serializers for the examples: records carry nothing, every event
    serializes to [msgHello], every metric to [msgAbc]. *)
Definition sampleEvent (_ : unit) (_ _ : JsVal) : SerializedHecMsg := msgHello.
Definition sampleMetric (_ : unit) (_ _ : JsVal) : SerializedHecMsg := msgAbc.
Definition sampleMetrics (_ : MultiMetrics unit Z) (_ _ : JsVal) : SerializedHecMsg :=
  msgAbc ++ msgAbc.
Definition sampleMkMetric (_ : unit) (_ : string) (_ : Z) : unit := tt.

(** Pushes, a flush, a resumption of the flush, a shutdown and a push
    after it. *)
Definition sampleOps : list (ClientOp unit unit unit Z) :=
  [OpPushEvent tt;
   OpPushMetric tt;
   OpPushMetrics (mkMultiMetrics [("cpu", Some 1); ("mem", None); ("disk", Some 2)] tt);
   OpFlush;
   OpPushEvent tt;
   OpResume 0 (Responded 200 7);
   OpShutdown None;
   OpPushEvent tt].

(** A client with a message queued that was then shut down, and a store
    holding it. *)
Definition busyClient : HecClient :=
  fst (shutdown (stateOf (pushSerializedMsg sampleClient msgHello)) None).

Definition busyStore : Store :=
  {| clients := {[ 0%nat := busyClient ]};
     agents := agents sampleStore;
     nextClient := 1; nextAgent := 1 |}.

End HecRuns.

(* ===================================================================== *)
(** ** Runs of an abort handle *)
(* ===================================================================== *)

Module AbortHandleRuns.
Import AsyncTasks.


(** The members of the set are in the store, as they were created: not
    aborted, pending.  Until the handle is aborted, the set holds the
    tokens of the closures that are running. *)
Definition membersPending (h : AbortHandle) : Prop :=
  (forall tok, tok ∈ handles h -> store h !! tok = Some newAbortPromise)
  /\ (aborted h = false -> handles h = running h).

End AbortHandleRuns.

(* ===================================================================== *)
(** ** Properties of the abort handle *)
(* ===================================================================== *)

Module AbortHandleSpec.
Import AsyncTasks.

Lemma exec_app (ops1 ops2 : list Op) (h : AbortHandle) :
  exec (ops1 ++ ops2) h = exec ops2 (exec ops1 h).
Proof. unfold exec. apply fold_left_app. Qed.

Lemma exec_cons (op : Op) (ops : list Op) (h : AbortHandle) :
  exec (op :: ops) h = exec ops (step h op).
Proof. reflexivity. Qed.

Lemma consistent_new : consistent newAbortHandle.
Proof.
  unfold consistent, newAbortHandle; simpl.
  split; [set_solver|]. split; [set_solver|]. done.
Qed.

Lemma consistent_step (h : AbortHandle) (op : Op) :
  consistent h -> consistent (step h op).
Proof.
  intros (Hsub & Hlt & Hab). destruct op as [| |tok outcome]; simpl.
  - unfold consistent, abort; simpl. split; [set_solver|]. split; [exact Hlt|done].
  - unfold withAbort. destruct (aborted h) eqn:Ea; simpl.
    + split; [exact Hsub|]. split; [exact Hlt|]. intros _. apply Hab. reflexivity.
    + split; [apply union_mono_l, Hsub|]. split.
      * intros x Hx. apply elem_of_union in Hx as [Hx|Hx].
        -- apply elem_of_singleton in Hx. subst x. apply Nat.lt_succ_diag_r.
        -- specialize (Hlt x Hx). apply Nat.lt_lt_succ_r, Hlt.
      * discriminate.
  - destruct (decide (tok ∈ running h)) as [Hin|Hnin].
    + unfold consistent, withAbort_finally; simpl.
      split; [apply difference_mono_r, Hsub|]. split.
      * intros x Hx. apply Hlt. apply elem_of_difference in Hx as [Hx _]. exact Hx.
      * intros Ha. rewrite (Hab Ha). apply empty_difference_L.
    + split; [exact Hsub|]. split; [exact Hlt|exact Hab].
Qed.

Lemma consistent_exec (ops : list Op) (h : AbortHandle) :
  consistent h -> consistent (exec ops h).
Proof.
  revert h. induction ops as [|op ops IH]; intros h Hc; [exact Hc|].
  rewrite exec_cons. apply IH, consistent_step, Hc.
Qed.

Lemma aborted_step (h : AbortHandle) (op : Op) :
  aborted h = true -> aborted (step h op) = true.
Proof.
  intros Ha. destruct op as [| |tok outcome]; simpl.
  - reflexivity.
  - unfold withAbort. rewrite Ha. exact Ha.
  - destruct (decide (tok ∈ running h)); [exact Ha|exact Ha].
Qed.

Lemma aborted_exec (ops : list Op) (h : AbortHandle) :
  aborted h = true -> aborted (exec ops h) = true.
Proof.
  revert h. induction ops as [|op ops IH]; intros h Ha; [exact Ha|].
  rewrite exec_cons. apply IH, aborted_step, Ha.
Qed.

Lemma aborted_after_abort (ops : list Op) (h : AbortHandle) :
  OpAbort ∈ ops -> aborted (exec ops h) = true.
Proof.
  intros Hin. apply list_elem_of_split in Hin as (ops1 & ops2 & ->).
  rewrite exec_app, exec_cons. apply aborted_exec. reflexivity.
Qed.

Lemma retired_step (tok : nat) (h : AbortHandle) (op : Op) :
  retired tok h -> retired tok (step h op).
Proof.
  intros [Hnr Hlt]. destruct op as [| |tok' outcome]; simpl.
  - split; [exact Hnr|exact Hlt].
  - unfold withAbort. destruct (aborted h); simpl.
    + split; [exact Hnr|exact Hlt].
    + split; [|apply Nat.lt_lt_succ_r, Hlt].
      intros Hx. apply elem_of_union in Hx as [Hx|Hx].
      * apply elem_of_singleton in Hx. subst tok. exact (Nat.lt_irrefl _ Hlt).
      * exact (Hnr Hx).
  - destruct (decide (tok' ∈ running h)); simpl.
    + split; [|exact Hlt].
      intros Hx. apply elem_of_difference in Hx as [Hx _]. exact (Hnr Hx).
    + split; [exact Hnr|exact Hlt].
Qed.

Lemma retired_exec (tok : nat) (ops : list Op) (h : AbortHandle) :
  retired tok h -> retired tok (exec ops h).
Proof.
  revert h. induction ops as [|op ops IH]; intros h Hr; [exact Hr|].
  rewrite exec_cons. apply IH, retired_step, Hr.
Qed.

Lemma nextRef_step (h : AbortHandle) (op : Op) :
  (nextRef h <= nextRef (step h op))%nat.
Proof.
  destruct op as [| |tok outcome]; simpl.
  - lia.
  - unfold withAbort. destruct (aborted h); simpl; lia.
  - destruct (decide (tok ∈ running h)); simpl; lia.
Qed.

Lemma nextRef_exec (ops : list Op) (h : AbortHandle) :
  (nextRef h <= nextRef (exec ops h))%nat.
Proof.
  revert h. induction ops as [|op ops IH]; intros h; [reflexivity|].
  rewrite exec_cons. etransitivity; [apply nextRef_step|apply IH].
Qed.

Lemma exit_retires (tok : nat) (outcome : Settlement JsVal) (h : AbortHandle) :
  (tok < nextRef h)%nat -> retired tok (step h (OpExit tok outcome)).
Proof.
  intros Hlt. simpl. destruct (decide (tok ∈ running h)) as [Hin|Hnin]; simpl.
  - split; [|exact Hlt].
    intros Hx. apply elem_of_difference in Hx as [_ Hx].
    apply Hx, elem_of_singleton. reflexivity.
  - split; [exact Hnin|exact Hlt].
Qed.

(** C9. Once [abort] has been called on a handle, every later [withAbort]
    returns a promise rejected with [ABORT] and leaves the handle as it
    was, so the closure is not invoked.  On a handle not yet aborted,
    [withAbort] invokes the closure with a fresh token that it has added to
    the set; whatever happens next, once the closure has exited (with any
    outcome) or the handle has been aborted the token is not in the set,
    and at any time the set holds only tokens of closures still running. *)
Theorem withAbort_scopes_its_token (ops : list Op) :
  let h := exec ops newAbortHandle in
  (OpAbort ∈ ops -> aborted h = true)
  /\ (aborted h = true ->
        withAbort h = (h, RejectedAtOnce ABORT)
        /\ invoked (fst (withAbort h)) = invoked h)
  /\ (aborted h = false ->
        exists tok h',
          withAbort h = (h', Awaiting tok)
          /\ (tok ∉ handles h) /\ (tok ∈ handles h')
          /\ invoked h' = tok :: invoked h
          /\ (forall ops1 outcome ops2,
                tok ∉ handles (exec (ops1 ++ OpExit tok outcome :: ops2) h'))
          /\ (forall ops1 ops2,
                tok ∉ handles (exec (ops1 ++ OpAbort :: ops2) h')))
  /\ handles h ⊆ running h.
Proof.
  intros h.
  assert (Hc : consistent h) by (apply consistent_exec, consistent_new).
  split; [intros Hin; apply aborted_after_abort, Hin|].
  split.
  { intros Ha. unfold withAbort. rewrite Ha. split; reflexivity. }
  split; [|apply Hc].
  intros Ha. destruct Hc as (Hsub & Hlt & _).
  exists (nextRef h), (fst (withAbort h)).
  assert (Hw : withAbort h = (fst (withAbort h), Awaiting (nextRef h))).
  { unfold withAbort. rewrite Ha. reflexivity. }
  split; [exact Hw|].
  assert (Hc' : consistent (fst (withAbort h))).
  { apply (consistent_step h OpWithAbort). repeat split; [exact Hsub|exact Hlt|].
    rewrite Ha. discriminate. }
  assert (Hn : nextRef (fst (withAbort h)) = S (nextRef h)).
  { unfold withAbort. rewrite Ha. reflexivity. }
  split.
  { intros Hin. apply Hsub, Hlt in Hin. lia. }
  split.
  { unfold withAbort. rewrite Ha. simpl. set_solver. }
  split.
  { unfold withAbort. rewrite Ha. reflexivity. }
  split.
  - intros ops1 outcome ops2. rewrite exec_app, exec_cons.
    set (h1 := exec ops1 (fst (withAbort h))).
    assert (Hr : retired (nextRef h) (exec ops2 (step h1 (OpExit (nextRef h) outcome)))).
    { apply retired_exec, exit_retires.
      pose proof (nextRef_exec ops1 (fst (withAbort h))) as Hle.
      fold h1 in Hle. lia. }
    assert (Hc2 : consistent (exec ops2 (step h1 (OpExit (nextRef h) outcome)))).
    { apply consistent_exec, consistent_step, consistent_exec, Hc'. }
    destruct Hr as [Hnr _]. destruct Hc2 as [Hsub2 _]. set_solver.
  - intros ops1 ops2.
    assert (Hc2 : consistent (exec (ops1 ++ OpAbort :: ops2) (fst (withAbort h)))).
    { apply consistent_exec, Hc'. }
    destruct Hc2 as (_ & _ & Hempty).
    rewrite Hempty; [set_solver|].
    apply aborted_after_abort. apply list_elem_of_In, in_or_app. right. left. reflexivity.
Qed.

End AbortHandleSpec.

(* ===================================================================== *)
(** ** Properties of the HEC client: queue, flush scheduling, stats *)
(* ===================================================================== *)

Module HecQueueSpec.
Import Hec.

Ltac flush_cases c :=
  unfold flushInternal, sendToHec, afterBody;
  destruct (flushTimer c) eqn:?; simpl; destruct (queue c) eqn:?; simpl;
  try destruct (gzip (config c)); simpl.

Lemma flushInternal_flushTimer (c : HecClient) :
  flushTimer (fst (flushInternal c)) = None.
Proof. flush_cases c; congruence. Qed.

Lemma flushInternal_queue (c : HecClient) :
  queue (fst (flushInternal c)) = [].
Proof. flush_cases c; congruence. Qed.

Lemma flushInternal_queueSizeBytes (c : HecClient) :
  queueSizeBytes (fst (flushInternal c))
  = match queue c with [] => queueSizeBytes c | _ :: _ => 0 end.
Proof. flush_cases c; congruence. Qed.

Lemma flushInternal_config (c : HecClient) :
  config (fst (flushInternal c)) = config c.
Proof. flush_cases c; congruence. Qed.

Lemma flushInternal_active (c : HecClient) :
  active (fst (flushInternal c)) = active c.
Proof. flush_cases c; congruence. Qed.


Lemma flushInternal_httpAgent (c : HecClient) :
  httpAgent (fst (flushInternal c)) = httpAgent c.
Proof. flush_cases c; congruence. Qed.

Lemma flushInternal_empty (c : HecClient) :
  queue c = [] ->
  flushInternal c = (setFlushTimer c None, AlreadyResolved)
  \/ flushInternal c = (c, AlreadyResolved).
Proof.
  intros Hq. unfold flushInternal.
  destruct (flushTimer c); simpl; rewrite Hq; [left|right]; reflexivity.
Qed.

Lemma flushInternal_empty_flushes (c : HecClient) :
  queue c = [] ->
  activeFlushing (fst (flushInternal c)) = activeFlushing c
  /\ flushHandles (fst (flushInternal c)) = flushHandles c
  /\ nextHandle (fst (flushInternal c)) = nextHandle c.
Proof.
  intros Hq. destruct (flushInternal_empty c Hq) as [-> | ->]; simpl; auto.
Qed.

(** A flush of a non-empty queue dispatches exactly the queue, under a
    fresh handle that joins the active set. *)
Lemma flushInternal_dispatch (c : HecClient) :
  queue c <> [] ->
  snd (flushInternal c) = PromiseOf (nextHandle c)
  /\ batchOf (fst (flushInternal c)) (nextHandle c) = Some (queue c)
  /\ activeFlushing (fst (flushInternal c)) = {[nextHandle c]} ∪ activeFlushing c
  /\ nextHandle (fst (flushInternal c)) = S (nextHandle c)
  /\ (forall h, h <> nextHandle c ->
        flushHandles (fst (flushInternal c)) !! h = flushHandles c !! h).
Proof.
  intros Hq. unfold batchOf. flush_cases c; try congruence;
    rewrite ?lookup_insert_eq; simpl;
    (split; [reflexivity|]); (split; [reflexivity|]); (split; [reflexivity|]);
    (split; [reflexivity|]); intros h Hh; rewrite lookup_insert_ne by congruence;
    reflexivity.
Qed.

(** C10. [flushStats] returns the counters as they were before the call
    and resets each of them to zero; the queue, its tracked size, the set
    of active flushes and the configuration are as before (and so are the
    active flag, the idle timer, the agent and the flush handles). *)
Theorem flushStats_snapshots_and_resets_counters (c : HecClient) :
  stats_counters (fst (flushStats c)) = counters c
  /\ counters (snd (flushStats c)) = initialCounters
  /\ (errorCount (counters (snd (flushStats c))) = 0
      /\ retryCount (counters (snd (flushStats c))) = 0
      /\ queuedMessages (counters (snd (flushStats c))) = 0
      /\ sentMessages (counters (snd (flushStats c))) = 0
      /\ queuedBytes (counters (snd (flushStats c))) = 0
      /\ sentBytes (counters (snd (flushStats c))) = 0
      /\ transferredBytes (counters (snd (flushStats c))) = 0)
  /\ queue (snd (flushStats c)) = queue c
  /\ queueSizeBytes (snd (flushStats c)) = queueSizeBytes c
  /\ activeFlushing (snd (flushStats c)) = activeFlushing c
  /\ config (snd (flushStats c)) = config c
  /\ (active (snd (flushStats c)) = active c
      /\ flushTimer (snd (flushStats c)) = flushTimer c
      /\ httpAgent (snd (flushStats c)) = httpAgent c
      /\ flushHandles (snd (flushStats c)) = flushHandles c).
Proof. unfold flushStats; simpl. repeat split; reflexivity. Qed.

Lemma entriesTrigger_test (c : HecClient) :
  negb (maxQueueEntries (config c) =? -1)
  && (Z.of_nat (length (queue c)) >? maxQueueEntries (config c)) = true
  <-> entriesTrigger c.
Proof.
  unfold entriesTrigger.
  rewrite andb_true_iff, negb_true_iff, Z.eqb_neq, Z.gtb_gt. reflexivity.
Qed.

Lemma scheduleFlush_triggered (c : HecClient) :
  entriesTrigger c -> scheduleFlush c = fst (flushInternal c).
Proof.
  intros Ht. apply entriesTrigger_test in Ht. unfold scheduleFlush.
  rewrite Ht. reflexivity.
Qed.

Lemma scheduleFlush_not_triggered (c : HecClient) :
  ~ entriesTrigger c ->
  scheduleFlush c
  = match flushTimer c with
    | None => setFlushTimer c (Some (default 0 (flushTime (config c))))
    | Some _ => c
    end.
Proof.
  intros Ht. unfold scheduleFlush.
  destruct (negb (maxQueueEntries (config c) =? -1)
            && (Z.of_nat (length (queue c)) >? maxQueueEntries (config c))) eqn:E;
    [|reflexivity].
  exfalso. apply Ht, entriesTrigger_test, E.
Qed.

(** Without the entries trigger [scheduleFlush] only sees to the idle
    timer. *)
Lemma scheduleFlush_arms_timer (c : HecClient) :
  ~ entriesTrigger c ->
  queue (scheduleFlush c) = queue c
  /\ queueSizeBytes (scheduleFlush c) = queueSizeBytes c
  /\ activeFlushing (scheduleFlush c) = activeFlushing c
  /\ flushHandles (scheduleFlush c) = flushHandles c
  /\ flushTimer (scheduleFlush c) <> None.
Proof.
  intros Ht. rewrite (scheduleFlush_not_triggered c Ht).
  destruct (flushTimer c) eqn:Et; simpl; rewrite ?Et; repeat split; congruence.
Qed.

(** C4, as amended. [scheduleFlush] triggers an immediate flush (it does
    what [flushInternal] does, and returns with no idle timer armed) if and
    only if [maxQueueEntries] is not -1 and the queue has more entries than
    [maxQueueEntries]; otherwise it leaves the queue and the flushes alone
    and an idle timer is armed on return.  With [maxQueueEntries = -1] the
    second case holds whatever the queue's depth. *)
Theorem scheduleFlush_flushes_iff_entries_exceeded (c : HecClient) :
  (entriesTrigger c -> scheduleFlush c = fst (flushInternal c))
  /\ (~ entriesTrigger c ->
        queue (scheduleFlush c) = queue c
        /\ queueSizeBytes (scheduleFlush c) = queueSizeBytes c
        /\ activeFlushing (scheduleFlush c) = activeFlushing c
        /\ flushHandles (scheduleFlush c) = flushHandles c
        /\ flushTimer (scheduleFlush c) <> None)
  /\ (flushTimer (scheduleFlush c) = None <-> entriesTrigger c)
  /\ (maxQueueEntries (config c) = -1 ->
        ~ entriesTrigger c
        /\ queue (scheduleFlush c) = queue c
        /\ activeFlushing (scheduleFlush c) = activeFlushing c
        /\ flushTimer (scheduleFlush c) <> None).
Proof.
  pose proof (scheduleFlush_arms_timer c) as Hno.
  split; [apply scheduleFlush_triggered|].
  split; [exact Hno|].
  split.
  - split.
    + intros Hnone. destruct (decide (maxQueueEntries (config c) = -1)) as [He|He].
      * exfalso. apply (Hno (fun Ht => proj1 Ht He)). exact Hnone.
      * destruct (Z_gt_dec (Z.of_nat (length (queue c))) (maxQueueEntries (config c)))
          as [Hg|Hg]; [split; assumption|].
        exfalso. apply (Hno (fun Ht => Hg (proj2 Ht))). exact Hnone.
    + intros Ht. rewrite (scheduleFlush_triggered c Ht). apply flushInternal_flushTimer.
  - intros He. assert (Ht : ~ entriesTrigger c) by (intros [Hne _]; exact (Hne He)).
    split; [exact Ht|]. destruct (Hno Ht) as (Hq & _ & Ha & _ & Hf). auto.
Qed.

Lemma pushSerializedMsg_active (c : HecClient) (m : SerializedHecMsg) :
  active c = true ->
  pushSerializedMsg c m = Normal (scheduleFlush (appended c m)).
Proof. intros Ha. unfold pushSerializedMsg. rewrite Ha. reflexivity. Qed.

Lemma pushSerializedMsg_inactive (c : HecClient) (m : SerializedHecMsg) :
  active c = false ->
  pushSerializedMsg c m = Throw (JErr "HEC client has been shut down") c.
Proof. intros Ha. unfold pushSerializedMsg. rewrite Ha. reflexivity. Qed.

Lemma flushInternal_setCounters (c : HecClient) (k : Counters) :
  fst (flushInternal (setCounters c k)) = setCounters (fst (flushInternal c)) k.
Proof.
  unfold flushInternal, sendToHec, afterBody; simpl.
  destruct (flushTimer c); simpl; destruct (queue c); simpl;
    try destruct (gzip (config c)); reflexivity.
Qed.

Lemma totalLength_app (q1 q2 : list SerializedHecMsg) :
  totalLength (q1 ++ q2) = totalLength q1 + totalLength q2.
Proof.
  induction q1 as [|m q1 IH]; simpl; [reflexivity|].
  unfold totalLength in *. simpl. rewrite IH. lia.
Qed.

Lemma totalLength_single (m : SerializedHecMsg) : totalLength [m] = byteLength m.
Proof. unfold totalLength; simpl. lia. Qed.

(** C3, as amended. When an active client is pushed a message with which
    the tracked byte total would exceed [maxQueueSize], the queue as it
    stood is flushed before the message is appended: if it was not empty it
    goes out as one batch, without the newcomer.  If the entries trigger
    does not fire for a queue of one ([maxQueueEntries] is -1 or at least
    1), no other batch is dispatched and after the push the queue holds
    exactly the new message (and the byte total is its length, provided
    the total tracked the queue before); if it fires ([maxQueueEntries] is
    below 1 and not -1), the new message is itself dispatched at once,
    alone in a batch of its own, and the queue is empty. *)
Theorem push_over_maxQueueSize_flushes_before_append
    (c : HecClient) (m : SerializedHecMsg) :
  active c = true ->
  queueSizeBytes c + byteLength m > maxQueueSize (config c) ->
  exists c',
    pushSerializedMsg c m = Normal c'
    /\ (queue c <> [] ->
          batchOf c' (nextHandle c) = Some (queue c)
          /\ nextHandle c ∈ activeFlushing c')
    /\ (maxQueueEntries (config c) = -1 \/ 1 <= maxQueueEntries (config c) ->
          queue c' = [m]
          /\ (sizeTracked c -> queueSizeBytes c' = byteLength m)
          /\ flushHandles c' = flushHandles (fst (flushInternal c))
          /\ activeFlushing c' = activeFlushing (fst (flushInternal c)))
    /\ (maxQueueEntries (config c) <> -1 /\ maxQueueEntries (config c) < 1 ->
          queue c' = []
          /\ queueSizeBytes c' = 0
          /\ batchOf c' (nextHandle (fst (flushInternal c))) = Some [m]
          /\ nextHandle (fst (flushInternal c)) ∈ activeFlushing c').
Proof.
  intros Ha Hover.
  exists (scheduleFlush (appended c m)).
  split; [apply pushSerializedMsg_active, Ha|].
  assert (Happ : appended c m
                 = setQueue (setCounters (fst (flushInternal c))
                               (addQueued (counters c) (byteLength m)))
                     [m] (queueSizeBytes (fst (flushInternal c)) + byteLength m)).
  { unfold appended. cbv zeta.
    replace (queueSizeBytes (setCounters c (addQueued (counters c) (byteLength m)))
             + byteLength m
             >? maxQueueSize (config (setCounters c (addQueued (counters c) (byteLength m)))))
      with true by (symmetry; apply Z.gtb_gt; exact Hover).
    rewrite flushInternal_setCounters.
    change (queue (setCounters ?x _)) with (queue x).
    change (queueSizeBytes (setCounters ?x _)) with (queueSizeBytes x).
    rewrite flushInternal_queue. reflexivity. }
  set (c3 := appended c m) in *.
  assert (Hq3 : queue c3 = [m]) by (rewrite Happ; reflexivity).
  assert (Hs3 : queueSizeBytes c3 = queueSizeBytes (fst (flushInternal c)) + byteLength m)
    by (rewrite Happ; reflexivity).
  assert (Hcfg3 : config c3 = config c).
  { rewrite Happ. simpl. apply flushInternal_config. }
  assert (Hh3 : flushHandles c3 = flushHandles (fst (flushInternal c)))
    by (rewrite Happ; reflexivity).
  assert (Hact3 : activeFlushing c3 = activeFlushing (fst (flushInternal c)))
    by (rewrite Happ; reflexivity).
  assert (Hn3 : nextHandle c3 = nextHandle (fst (flushInternal c)))
    by (rewrite Happ; reflexivity).
  assert (Hold : queue c <> [] ->
                 batchOf c3 (nextHandle c) = Some (queue c)
                 /\ nextHandle c ∈ activeFlushing c3
                 /\ nextHandle c3 = S (nextHandle c)).
  { intros Hne. destruct (flushInternal_dispatch c Hne) as (_ & Hb & Hset & Hn & _).
    unfold batchOf in *. rewrite Hh3, Hact3, Hn3, Hset. split; [exact Hb|].
    split; [apply elem_of_union_l, elem_of_singleton; reflexivity|exact Hn]. }
  destruct (decide (entriesTrigger c3)) as [Ht|Ht].
  - (* the newcomer is flushed at once *)
    rewrite (scheduleFlush_triggered c3 Ht).
    assert (Hne3 : queue c3 <> []) by (rewrite Hq3; discriminate).
    destruct (flushInternal_dispatch c3 Hne3) as (_ & Hb & Hset & _ & Hother).
    destruct Ht as [Hm1 Hgt]. rewrite Hcfg3, Hq3 in *. simpl in Hgt.
    split.
    { intros Hne. destruct (Hold Hne) as (Hb0 & Hin0 & Hn0).
      split.
      - unfold batchOf in *. rewrite Hother; [exact Hb0|]. rewrite Hn0. lia.
      - rewrite Hset. apply elem_of_union_r, Hin0. }
    split; [intros [He|Hle]; [congruence|lia]|].
    intros _. split; [apply flushInternal_queue|].
    split.
    { rewrite flushInternal_queueSizeBytes, Hq3. reflexivity. }
    rewrite <- Hn3. split; [exact Hb|].
    rewrite Hset. apply elem_of_union_l, elem_of_singleton. reflexivity.
  - (* the newcomer waits in the queue *)
    destruct (scheduleFlush_arms_timer c3 Ht) as (Hq & Hsz & Hact & Hhs & _).
    split.
    { intros Hne. destruct (Hold Hne) as (Hb0 & Hin0 & _).
      unfold batchOf in *. rewrite Hhs, Hact. split; assumption. }
    split.
    { intros _. rewrite Hq, Hsz, Hhs, Hact, Hq3, Hh3, Hact3, Hs3.
      repeat split. intros Hs. rewrite flushInternal_queueSizeBytes.
      unfold sizeTracked in Hs. destruct (queue c); [|lia].
      rewrite Hs. unfold totalLength; simpl. lia. }
    intros [Hm1 Hlt]. exfalso. apply Ht. split; rewrite Hcfg3; [exact Hm1|].
    rewrite Hq3. simpl. lia.
Qed.

(* --------------------------------------------------------------------- *)
(** *** What the operations leave alone *)
(* --------------------------------------------------------------------- *)

Lemma sameQueueing_refl (c : HecClient) : sameQueueing c c.
Proof. repeat split. Qed.

Lemma sendToHec_resume_sameQueueing (c : HecClient) (ab : bool) (t : SendTask)
    (ev : Resume) :
  sameQueueing c (fst (sendToHec_resume c ab t ev))
  /\ activeFlushing (fst (sendToHec_resume c ab t ev)) = activeFlushing c
  /\ flushHandles (fst (sendToHec_resume c ab t ev)) = flushHandles c
  /\ nextHandle (fst (sendToHec_resume c ab t ev)) = nextHandle c.
Proof.
  unfold sendToHec_resume, onError, afterBody, sameQueueing.
  destruct (phase t), ev; simpl;
    repeat match goal with
           | |- context [if ?b then _ else _] => destruct b; simpl
           end;
    repeat split; reflexivity.
Qed.

Lemma resume_sameQueueing (c : HecClient) (h : nat) (ev : Resume) :
  sameQueueing c (resume c h ev).
Proof.
  unfold resume. destruct (flushHandles c !! h) as [f|]; [|apply sameQueueing_refl].
  destruct (phase (task f)) eqn:Ep; try apply sameQueueing_refl;
    destruct (sendToHec_resume c (signalAborted f) (task f) ev) as [c' t'] eqn:Er;
    pose proof (sendToHec_resume_sameQueueing c (signalAborted f) (task f) ev) as [Hs _];
    rewrite Er in Hs; simpl in Hs; destruct (phase t'); exact Hs.
Qed.

Lemma cancelAll_sameQueueing (c : HecClient) : sameQueueing c (cancelAll c).
Proof. repeat split. Qed.

Lemma shutdown_finish_sameQueueing (c : HecClient) :
  sameQueueing c (shutdown_finish c).
Proof.
  unfold shutdown_finish. destruct (0 <? size (activeFlushing c))%nat;
    [apply cancelAll_sameQueueing|apply sameQueueing_refl].
Qed.

Lemma flush_state (c : HecClient) : fst (flush c) = fst (flushInternal c).
Proof. unfold flush. destruct (flushInternal c); reflexivity. Qed.

Lemma timerFires_cases (c : HecClient) :
  timerFires c = fst (flushInternal c) \/ timerFires c = c.
Proof. unfold timerFires. destruct (flushTimer c); [left|right]; reflexivity. Qed.

Lemma shutdown_active (c : HecClient) (maxTime : option Z) :
  active (fst (shutdown c maxTime)) = false.
Proof.
  unfold shutdown.
  assert (Hf : active (shutdown_finish (setActive c false)) = false).
  { destruct (shutdown_finish_sameQueueing (setActive c false)) as (_ & _ & Ha & _).
    rewrite Ha. reflexivity. }
  destruct maxTime as [ms|]; [|exact Hf].
  destruct ((0 <? size (activeFlushing (setActive c false)))%nat
            || (0 <? length (queue (setActive c false)))%nat); [|exact Hf].
  simpl. rewrite flush_state, flushInternal_active. reflexivity.
Qed.

Lemma scheduleFlush_active (c : HecClient) :
  active (scheduleFlush c) = active c.
Proof.
  unfold scheduleFlush.
  destruct (negb (maxQueueEntries (config c) =? -1)
            && (Z.of_nat (length (queue c)) >? maxQueueEntries (config c))).
  - apply flushInternal_active.
  - destruct (flushTimer c); reflexivity.
Qed.

(* --------------------------------------------------------------------- *)
(** *** The tracked byte total *)
(* --------------------------------------------------------------------- *)

Lemma sizeTracked_flushInternal (c : HecClient) :
  sizeTracked c -> sizeTracked (fst (flushInternal c)).
Proof.
  unfold sizeTracked. intros Hs.
  rewrite flushInternal_queue, flushInternal_queueSizeBytes.
  destruct (queue c); [exact Hs|reflexivity].
Qed.

Lemma sizeTracked_same (c c' : HecClient) :
  sameQueueing c c' -> sizeTracked c -> sizeTracked c'.
Proof. unfold sizeTracked. intros (Hq & Hs & _) H. rewrite Hq, Hs. exact H. Qed.

Lemma sizeTracked_scheduleFlush (c : HecClient) :
  sizeTracked c -> sizeTracked (scheduleFlush c).
Proof.
  intros Hs. unfold scheduleFlush.
  destruct (negb (maxQueueEntries (config c) =? -1)
            && (Z.of_nat (length (queue c)) >? maxQueueEntries (config c))).
  - apply sizeTracked_flushInternal, Hs.
  - destruct (flushTimer c); exact Hs.
Qed.

Lemma sizeTracked_appended (c : HecClient) (m : SerializedHecMsg) :
  sizeTracked c -> sizeTracked (appended c m).
Proof.
  intros Hs. unfold appended. cbv zeta.
  set (c1 := setCounters c (addQueued (counters c) (byteLength m))).
  assert (H1 : sizeTracked c1) by exact Hs.
  destruct (queueSizeBytes c1 + byteLength m >? maxQueueSize (config c1)).
  - pose proof (sizeTracked_flushInternal c1 H1) as H2.
    unfold sizeTracked in *.
    change (queueSizeBytes (fst (flushInternal c1)) + byteLength m
            = totalLength (queue (fst (flushInternal c1)) ++ [m])).
    rewrite totalLength_app, totalLength_single, H2. reflexivity.
  - unfold sizeTracked in *.
    change (queueSizeBytes c1 + byteLength m = totalLength (queue c1 ++ [m])).
    rewrite totalLength_app, totalLength_single, H1. reflexivity.
Qed.

Lemma sizeTracked_pushSerializedMsg (c : HecClient) (m : SerializedHecMsg) :
  sizeTracked c -> sizeTracked (stateOf (pushSerializedMsg c m)).
Proof.
  intros Hs. destruct (active c) eqn:Ha.
  - rewrite (pushSerializedMsg_active c m Ha). simpl.
    apply sizeTracked_scheduleFlush, sizeTracked_appended, Hs.
  - rewrite (pushSerializedMsg_inactive c m Ha). exact Hs.
Qed.


(* --------------------------------------------------------------------- *)
(** *** Over every run of a client *)
(* --------------------------------------------------------------------- *)

Section Runs.

Context {Event Metric MetricsRest MetricValue : Type}.
Variable serializeEvent : Event -> JsVal -> JsVal -> SerializedHecMsg.
Variable serializeMetric : Metric -> JsVal -> JsVal -> SerializedHecMsg.
Variable serializeMetrics :
  MultiMetrics MetricsRest MetricValue -> JsVal -> JsVal -> SerializedHecMsg.
Variable mkMetric : MetricsRest -> string -> MetricValue -> Metric.

Local Abbreviation step :=
  (clientStep serializeEvent serializeMetric serializeMetrics mkMetric).
Local Abbreviation run :=
  (clientExec serializeEvent serializeMetric serializeMetrics mkMetric).
Local Abbreviation ClientOp := (Hec.ClientOp Event Metric MetricsRest MetricValue).

Lemma run_cons (op : ClientOp) (ops : list ClientOp) (c : HecClient) :
  run (op :: ops) c = run ops (step c op).
Proof. reflexivity. Qed.

Lemma sizeTracked_pushEach (entries : list (string * option MetricValue))
    (r : MetricsRest) (c : HecClient) :
  sizeTracked c ->
  sizeTracked (stateOf (pushEach serializeMetric mkMetric c r entries)).
Proof.
  revert c. induction entries as [|[name [value|]] tl IH]; intros c Hs; simpl.
  - exact Hs.
  - unfold pushMetric.
    pose proof (sizeTracked_pushSerializedMsg c
                  (serializeMetric (mkMetric r name value)
                     (defaultMetadata (config c)) (defaultFields (config c))) Hs) as H1.
    destruct (pushSerializedMsg c _) as [c1|e c1]; simpl in *.
    + apply IH, H1.
    + exact H1.
  - apply IH, Hs.
Qed.

Lemma sizeTracked_step (c : HecClient) (op : ClientOp) :
  sizeTracked c -> sizeTracked (step c op).
Proof.
  intros Hs. destruct op as [msg|e|m|mm| | | |h ev| |maxTime|]; simpl.
  - destruct msg as [e|m]; simpl; apply sizeTracked_pushSerializedMsg, Hs.
  - apply sizeTracked_pushSerializedMsg, Hs.
  - apply sizeTracked_pushSerializedMsg, Hs.
  - unfold pushMetrics. destruct (multipleMetricFormatEnabled (config c)).
    + apply sizeTracked_pushSerializedMsg, Hs.
    + apply sizeTracked_pushEach, Hs.
  - rewrite flush_state. apply sizeTracked_flushInternal, Hs.
  - apply sizeTracked_flushInternal, Hs.
  - destruct (timerFires_cases c) as [-> | ->];
      [apply sizeTracked_flushInternal, Hs|exact Hs].
  - exact (sizeTracked_same _ _ (resume_sameQueueing c h ev) Hs).
  - exact Hs.
  - unfold shutdown.
    assert (H0 : sizeTracked (setActive c false)) by exact Hs.
    pose proof (sizeTracked_same _ _
                  (shutdown_finish_sameQueueing (setActive c false)) H0) as Hf.
    destruct maxTime as [ms|]; [|exact Hf].
    destruct ((0 <? size (activeFlushing (setActive c false)))%nat
              || (0 <? length (queue (setActive c false)))%nat); [|exact Hf].
    simpl. rewrite flush_state. apply sizeTracked_flushInternal, H0.
  - exact (sizeTracked_same _ _ (shutdown_finish_sameQueueing c) Hs).
Qed.

Lemma sizeTracked_run (ops : list ClientOp) (c : HecClient) :
  sizeTracked c -> sizeTracked (run ops c).
Proof.
  revert c. induction ops as [|op ops IH]; intros c Hs; [exact Hs|].
  rewrite run_cons. apply IH, sizeTracked_step, Hs.
Qed.

(** C5. In every state a client reaches from its construction, by any
    sequence of pushes, flushes, timer expiries, resumptions of in-flight
    sends, stats reads and shutdowns, [queueSizeBytes] is the sum of the
    lengths of the messages in the queue.  In particular a flush leaves the
    queue empty with a byte total of 0, and when the queue was not empty it
    is that queue which went out as the batch of the new flush handle. *)
Theorem queueSizeBytes_is_sum_of_queued_lengths
    (cfg : CookedHecConfig) (agent : nat) (ops : list ClientOp) :
  let c := run ops (newClient cfg agent) in
  queueSizeBytes c = totalLength (queue c)
  /\ queue (fst (flushInternal c)) = []
  /\ queueSizeBytes (fst (flushInternal c)) = 0
  /\ (queue c <> [] ->
        batchOf (fst (flushInternal c)) (nextHandle c) = Some (queue c)).
Proof.
  intros c.
  assert (Hs : sizeTracked c) by (apply sizeTracked_run; reflexivity).
  split; [exact Hs|].
  split; [apply flushInternal_queue|].
  split.
  - pose proof (sizeTracked_flushInternal c Hs) as Hf. unfold sizeTracked in Hf.
    rewrite Hf, flushInternal_queue. reflexivity.
  - intros Hne. apply (flushInternal_dispatch c Hne).
Qed.





End Runs.

End HecQueueSpec.

(* ===================================================================== *)
(** ** Properties of the HEC client: sending a batch *)
(* ===================================================================== *)

Module HecSendSpec.
Import Hec.

Lemma runSend_cons (c : HecClient) (t : SendTask) (ev : Resume) (evs : list Resume) :
  runSend c t (ev :: evs)
  = runSend (fst (sendToHec_resume c false t ev))
      (snd (sendToHec_resume c false t ev)) evs.
Proof. simpl. destruct (sendToHec_resume c false t ev). reflexivity. Qed.

Lemma runSend_app (evs1 evs2 : list Resume) (c : HecClient) (t : SendTask) :
  runSend c t (evs1 ++ evs2)
  = runSend (fst (runSend c t evs1)) (snd (runSend c t evs1)) evs2.
Proof.
  revert c t. induction evs1 as [|ev evs1 IH]; intros c t; [reflexivity|].
  rewrite <- app_comm_cons, !runSend_cons. apply IH.
Qed.

(** The start of a send, through the compression when there is one: the
    counters are untouched and the first request is out. *)
Lemma send_started (c : HecClient) (batch : list SerializedHecMsg)
    (body : list Byte.byte) :
  let r := runSend (fst (sendToHec c batch)) (snd (sendToHec c batch))
             (if gzip (config c) then [Compressed body] else []) in
  counters (fst r) = counters c
  /\ config (fst r) = config c
  /\ snd r = {| msgs := batch; rawBodySize := totalLength batch;
                bodySize := if gzip (config c) then byteLength body
                            else totalLength batch;
                attempt := 1; phase := AwaitFetch |}.
Proof.
  unfold sendToHec. destruct (gzip (config c)) eqn:Eg; simpl.
  - unfold afterBody; simpl. rewrite ?Eg. repeat split.
  - unfold afterBody; simpl. rewrite ?Eg. repeat split.
Qed.

(** A failed attempt on a signal that is not aborted: the error is
    counted; then a sleep within the cap, the next attempt beyond it. *)
Lemma failed_attempt (c : HecClient) (t : SendTask) (ev : Resume) :
  phase t = AwaitFetch ->
  failedAttempt ev = true ->
  counters (fst (sendToHec_resume c false t ev)) = incErrorCount (counters c)
  /\ config (fst (sendToHec_resume c false t ev)) = config c
  /\ snd (sendToHec_resume c false t ev)
     = if attempt t <=? maxRetries (config c)
       then setPhase t (AwaitSleep (resolveWaitTime (retryWaitTime (config c)) (attempt t)))
       else nextAttempt t.
Proof.
  intros Hp Hf. unfold sendToHec_resume. rewrite Hp.
  destruct ev as [body|e|status duration|e|]; simpl in Hf; try discriminate.
  - apply negb_true_iff in Hf. rewrite Hf. unfold onError; simpl.
    destruct (attempt t <=? maxRetries (config c)); repeat split.
  - unfold onError; simpl.
    destruct (attempt t <=? maxRetries (config c)); repeat split.
Qed.

Lemma slept (c : HecClient) (t : SendTask) (d : Z) :
  phase t = AwaitSleep d ->
  sendToHec_resume c false t Slept
  = (setCounters c (incRetryCount (counters c)), nextAttempt t).
Proof. intros Hp. unfold sendToHec_resume. rewrite Hp. reflexivity. Qed.

Lemma responded_ok (c : HecClient) (t : SendTask) (status duration : Z) :
  phase t = AwaitFetch ->
  responseOk status = true ->
  counters (fst (sendToHec_resume c false t (Responded status duration)))
  = addSent (counters c) (Z.of_nat (length (msgs t))) (rawBodySize t) (bodySize t)
  /\ snd (sendToHec_resume c false t (Responded status duration))
     = setPhase t (Settled (Fulfilled tt)).
Proof.
  intros Hp Hok. unfold sendToHec_resume. rewrite Hp, Hok. split; reflexivity.
Qed.

(** One failed attempt within the cap, and the sleep after it. *)
Lemma retry_round (c : HecClient) (t : SendTask) (ev : Resume) :
  phase t = AwaitFetch ->
  failedAttempt ev = true ->
  attempt t <= maxRetries (config c) ->
  let r := runSend c t [ev; Slept] in
  counters (fst r) = incRetryCount (incErrorCount (counters c))
  /\ config (fst r) = config c
  /\ snd r = nextAttempt t
  /\ phase (snd (runSend c t [ev]))
     = AwaitSleep (resolveWaitTime (retryWaitTime (config c)) (attempt t)).
Proof.
  intros Hp Hf Hle. cbv zeta.
  destruct (failed_attempt c t ev Hp Hf) as (Hk & Hcfg & Ht).
  apply Z.leb_le in Hle. rewrite Hle in Ht.
  rewrite !runSend_cons. simpl runSend.
  rewrite Ht.
  rewrite (slept _ _ (resolveWaitTime (retryWaitTime (config c)) (attempt t)))
    by reflexivity.
  simpl. rewrite Hk, Hcfg. repeat split.
Qed.

(** C6. A send whose first two attempts fail (the request is rejected or
    answered with a status outside 200..299) and whose third is answered
    with a 2xx, under [maxRetries = 3] and a constant [retryWaitTime],
    the signal never aborted: the promise fulfils at the third attempt
    after two sleeps of the constant wait; [errorCount] and [retryCount]
    have each grown by 2, [sentMessages] by the number of messages of the
    batch, [sentBytes] by the uncompressed size and [transferredBytes] by
    the size of the body as sent (the compressed one under [gzip]); the
    queued counters are as before. *)
Theorem send_succeeds_after_two_failed_attempts
    (c : HecClient) (batch : list SerializedHecMsg) (body : list Byte.byte)
    (w : Z) (f1 f2 : Resume) (status duration : Z) :
  maxRetries (config c) = 3 ->
  retryWaitTime (config c) = WaitConst w ->
  failedAttempt f1 = true ->
  failedAttempt f2 = true ->
  responseOk status = true ->
  let start := (if gzip (config c) then [Compressed body] else []) in
  let wire := if gzip (config c) then byteLength body else totalLength batch in
  let run evs := runSend (fst (sendToHec c batch)) (snd (sendToHec c batch))
                   (start ++ evs) in
  let r := run [f1; Slept; f2; Slept; Responded status duration] in
  phase (snd r) = Settled (Fulfilled tt)
  /\ attempt (snd r) = 3
  /\ phase (snd (run [f1])) = AwaitSleep w
  /\ phase (snd (run [f1; Slept; f2])) = AwaitSleep w
  /\ errorCount (counters (fst r)) = errorCount (counters c) + 2
  /\ retryCount (counters (fst r)) = retryCount (counters c) + 2
  /\ sentMessages (counters (fst r))
     = sentMessages (counters c) + Z.of_nat (length batch)
  /\ sentBytes (counters (fst r)) = sentBytes (counters c) + totalLength batch
  /\ transferredBytes (counters (fst r)) = transferredBytes (counters c) + wire
  /\ queuedMessages (counters (fst r)) = queuedMessages (counters c)
  /\ queuedBytes (counters (fst r)) = queuedBytes (counters c).
Proof.
  intros Hmax Hwait Hf1 Hf2 Hok. cbv zeta.
  pose proof (send_started c batch body) as Hstart. cbv zeta in Hstart.
  set (s := runSend (fst (sendToHec c batch)) (snd (sendToHec c batch))
              (if gzip (config c) then [Compressed body] else [])) in *.
  destruct Hstart as (Hk0 & Hcfg0 & Ht0).
  assert (Hrun : forall evs,
            runSend (fst (sendToHec c batch)) (snd (sendToHec c batch))
              ((if gzip (config c) then [Compressed body] else []) ++ evs)
            = runSend (fst s) (snd s) evs).
  { intros evs. apply runSend_app. }
  rewrite !Hrun.
  (* first attempt *)
  assert (Hp1 : phase (snd s) = AwaitFetch) by (rewrite Ht0; reflexivity).
  assert (Ha1 : attempt (snd s) = 1) by (rewrite Ht0; reflexivity).
  assert (Hle1 : attempt (snd s) <= maxRetries (config (fst s)))
    by (rewrite Ha1, Hcfg0, Hmax; lia).
  pose proof (retry_round (fst s) (snd s) f1 Hp1 Hf1 Hle1) as R1. cbv zeta in R1.
  set (s1 := runSend (fst s) (snd s) [f1; Slept]) in *.
  destruct R1 as (Hk1 & Hcfg1 & Ht1 & Hsl1).
  (* second attempt *)
  assert (Hp2 : phase (snd s1) = AwaitFetch) by (rewrite Ht1; reflexivity).
  assert (Ha2 : attempt (snd s1) = 2) by (rewrite Ht1; simpl; lia).
  assert (Hle2 : attempt (snd s1) <= maxRetries (config (fst s1)))
    by (rewrite Ha2, Hcfg1, Hcfg0, Hmax; lia).
  pose proof (retry_round (fst s1) (snd s1) f2 Hp2 Hf2 Hle2) as R2. cbv zeta in R2.
  set (s2 := runSend (fst s1) (snd s1) [f2; Slept]) in *.
  destruct R2 as (Hk2 & Hcfg2 & Ht2 & Hsl2).
  (* third attempt *)
  assert (Hp3 : phase (snd s2) = AwaitFetch) by (rewrite Ht2; reflexivity).
  destruct (responded_ok (fst s2) (snd s2) status duration Hp3 Hok) as (Hk3 & Ht3).
  assert (E5 : runSend (fst s) (snd s) [f1; Slept; f2; Slept; Responded status duration]
               = sendToHec_resume (fst s2) false (snd s2) (Responded status duration)).
  { change [f1; Slept; f2; Slept; Responded status duration]
      with ([f1; Slept] ++ [f2; Slept] ++ [Responded status duration]).
    rewrite !runSend_app. fold s1. fold s2. rewrite runSend_cons. simpl.
    destruct (sendToHec_resume (fst s2) false (snd s2) (Responded status duration));
      reflexivity. }
  assert (E3 : runSend (fst s) (snd s) [f1; Slept; f2]
               = runSend (fst s1) (snd s1) [f2]).
  { change [f1; Slept; f2] with ([f1; Slept] ++ [f2]).
    rewrite runSend_app. reflexivity. }
  rewrite E5, E3, Ht3, Hk3, Hk2, Hk1, Hk0, Hsl1, Hsl2, Hcfg1, Hcfg0, Hwait.
  rewrite Ht2, Ht1, Ht0. simpl.
  repeat split; lia.
Qed.

(** C1: what the code does beyond the cap.  Once the attempt number
    exceeds [maxRetries], a failed attempt on a signal that is not aborted
    is followed at once by the next attempt, without sleep and without a
    retry being counted: however many attempts fail, the send is still
    attempting and its promise is not settled. *)
Theorem sendToHec_attempts_beyond_maxRetries
    (c : HecClient) (t : SendTask) (evs : list Resume) :
  phase t = AwaitFetch ->
  maxRetries (config c) < attempt t ->
  forallb failedAttempt evs = true ->
  let r := runSend c t evs in
  phase (snd r) = AwaitFetch
  /\ attempt (snd r) = attempt t + Z.of_nat (length evs)
  /\ errorCount (counters (fst r)) = errorCount (counters c) + Z.of_nat (length evs)
  /\ retryCount (counters (fst r)) = retryCount (counters c)
  /\ sentMessages (counters (fst r)) = sentMessages (counters c).
Proof.
  revert c t. induction evs as [|ev evs IH]; intros c t Hp Hgt Hall; cbv zeta.
  - simpl. repeat split; [exact Hp|lia|lia].
  - simpl in Hall. apply andb_true_iff in Hall as [Hf Hall].
    rewrite runSend_cons.
    destruct (failed_attempt c t ev Hp Hf) as (Hk & Hcfg & Ht).
    assert (Hnle : (attempt t <=? maxRetries (config c)) = false)
      by (apply Z.leb_gt; exact Hgt).
    rewrite Hnle in Ht.
    set (c1 := fst (sendToHec_resume c false t ev)) in *.
    set (t1 := snd (sendToHec_resume c false t ev)) in *.
    assert (Hp1 : phase t1 = AwaitFetch) by (rewrite Ht; reflexivity).
    assert (Ha1 : attempt t1 = attempt t + 1) by (rewrite Ht; reflexivity).
    assert (Hgt1 : maxRetries (config c1) < attempt t1) by (rewrite Hcfg, Ha1; lia).
    specialize (IH c1 t1 Hp1 Hgt1 Hall). cbv zeta in IH.
    destruct IH as (H1 & H2 & H3 & H4 & H5).
    rewrite H1, H2, H3, H4, H5, Ha1, Hk. simpl length.
    repeat split; simpl; lia.
Qed.

(* --------------------------------------------------------------------- *)
(** *** Cancellation *)
(* --------------------------------------------------------------------- *)

Lemma cancelAll_lookup (c : HecClient) (h : nat) :
  flushHandles (cancelAll c) !! h
  = if decide (h ∈ activeFlushing c) then cancel <$> flushHandles c !! h
    else flushHandles c !! h.
Proof.
  unfold cancelAll; simpl. generalize (activeFlushing c).
  refine (set_fold_ind_L
            (fun (r : gmap nat FlushHandle) (X : gset nat) =>
               r !! h = if decide (h ∈ X) then cancel <$> flushHandles c !! h
                        else flushHandles c !! h) _ _ _ _).
  - destruct (decide (h ∈ (∅ : gset nat))) as [Hin|_]; [|reflexivity].
    exfalso. exact (not_elem_of_empty h Hin).
  - intros x X r Hx IH. destruct (decide (h = x)) as [->|Hne].
    + rewrite lookup_alter_eq, IH.
      destruct (decide (x ∈ X)) as [Hin|_]; [contradiction|].
      destruct (decide (x ∈ {[x]} ∪ X)) as [_|Hnin]; [reflexivity|].
      exfalso. apply Hnin, elem_of_union_l, elem_of_singleton. reflexivity.
    + rewrite lookup_alter_ne by congruence. rewrite IH.
      destruct (decide (h ∈ X)) as [Hin|Hnin];
        destruct (decide (h ∈ {[x]} ∪ X)) as [Hin'|Hnin']; try reflexivity.
      * exfalso. apply Hnin', elem_of_union_r, Hin.
      * exfalso. apply elem_of_union in Hin' as [Hin'|Hin']; [|contradiction].
        apply elem_of_singleton in Hin'. contradiction.
Qed.

Lemma shutdown_finish_cancels (c : HecClient) (h : nat) (f : FlushHandle) :
  flushHandles c !! h = Some f ->
  h ∈ activeFlushing c ->
  flushHandles (shutdown_finish c) !! h = Some (cancel f)
  /\ activeFlushing (shutdown_finish c) = activeFlushing c.
Proof.
  intros Hf Hin. unfold shutdown_finish.
  destruct (0 <? size (activeFlushing c))%nat eqn:Es.
  - split; [|reflexivity]. rewrite cancelAll_lookup, Hf.
    destruct (decide (h ∈ activeFlushing c)); [reflexivity|contradiction].
  - exfalso. apply Nat.ltb_ge in Es.
    assert (Hz : size (activeFlushing c) = 0%nat) by lia.
    apply size_empty_iff in Hz. apply (not_elem_of_empty (C := gset nat) h).
    rewrite <- Hz. exact Hin.
Qed.

(** A send resumed on an aborted signal, after a failed request or after
    the sleep: its promise is rejected with [new Error('Aborted')]. *)
Lemma aborted_resume (c : HecClient) (t : SendTask) (ev : Resume) :
  (phase t = AwaitFetch /\ failedAttempt ev = true)
  \/ (exists d, phase t = AwaitSleep d /\ ev = Slept) ->
  snd (sendToHec_resume c true t ev) = setPhase t (Settled (Rejected (JErr "Aborted"))).
Proof.
  intros [[Hp Hf]|(d & Hp & ->)]; unfold sendToHec_resume; rewrite Hp.
  - destruct ev as [body|e|status duration|e|]; simpl in Hf; try discriminate.
    + apply negb_true_iff in Hf. rewrite Hf. reflexivity.
    + reflexivity.
  - reflexivity.
Qed.

(** C2, as amended. A flush that is cancelled (by [shutdown], once its
    wait is over) while its request is pending or while it sleeps between
    two attempts: when the request then fails, or the sleep ends, the
    promise of the flush is rejected with [new Error('Aborted')] and the
    handle leaves the active set.  That reason is an ordinary [Error]
    object, told from other errors by its message only; it is not the
    [ABORT] symbol of async-tasks. *)
Theorem cancelled_flush_rejects_with_Error_Aborted
    (c : HecClient) (h : nat) (f : FlushHandle) (ev : Resume) :
  flushHandles c !! h = Some f ->
  h ∈ activeFlushing c ->
  (phase (task f) = AwaitFetch /\ failedAttempt ev = true)
  \/ (exists d, phase (task f) = AwaitSleep d /\ ev = Slept) ->
  let c' := resume (shutdown_finish c) h ev in
  phaseOf c' h = Some (Settled (Rejected (JErr "Aborted")))
  /\ (h ∉ activeFlushing c')
  /\ isError (JErr "Aborted") = true
  /\ JErr "Aborted" <> AsyncTasks.ABORT.
Proof.
  intros Hf Hin Hmid. cbv zeta.
  destruct (shutdown_finish_cancels c h f Hf Hin) as [Hl Hact].
  set (c1 := shutdown_finish c) in *.
  assert (Hph : match phase (task f) with Settled _ => False | _ => True end).
  { destruct Hmid as [[Hp _]|(d & Hp & _)]; rewrite Hp; exact I. }
  pose proof (aborted_resume c1 (task f) ev Hmid) as Hres.
  pose proof (HecQueueSpec.sendToHec_resume_sameQueueing c1 true (task f) ev)
    as (_ & Hact' & _ & _).
  assert (Hstep : resume c1 h ev
                  = let r := sendToHec_resume c1 true (task f) ev in
                    setFlushes (fst r) (activeFlushing (fst r) ∖ {[h]})
                      (<[h := {| task := snd r; signalAborted := true |}]>
                         (flushHandles (fst r)))
                      (nextHandle (fst r))).
  { unfold resume. rewrite Hl. simpl.
    destruct (phase (task f)) eqn:Ep; try contradiction;
      destruct (sendToHec_resume c1 true (task f) ev) as [c2 t2] eqn:Er;
      simpl in Hres; subst t2; reflexivity. }
  rewrite Hstep. cbv zeta. unfold phaseOf. simpl.
  rewrite lookup_insert_eq. simpl. rewrite Hres. simpl.
  split; [reflexivity|].
  split; [|split; [reflexivity|discriminate]].
  intros Hx. apply elem_of_difference in Hx as [_ Hx].
  apply Hx, elem_of_singleton. reflexivity.
Qed.

End HecSendSpec.

(* ===================================================================== *)
(** ** Properties of the HEC client: clone *)
(* ===================================================================== *)

Module HecCloneSpec.
Import Hec.

Section CloneSpec.

Variable isEmptyValue : JsVal -> bool.
Variable deepMerge : CookedHecConfig -> list (string * JsVal) -> list (string * JsVal).
Variable parseHecConfig : list (string * JsVal) -> Outcome CookedHecConfig.

Local Abbreviation clone := (Hec.clone isEmptyValue deepMerge parseHecConfig).
Local Abbreviation construct := (Hec.construct parseHecConfig).
Local Abbreviation removeEmtpyValues := (Hec.removeEmtpyValues isEmptyValue).




(** Stores stay well formed. *)
Lemma construct_storeOk (s s' : Store) (o : list (string * JsVal)) (r : nat) :
  storeOk s -> construct s o = Returns (s', r) -> storeOk s'.
Proof.
  intros Hok Hc. unfold Hec.construct in Hc.
  destruct (parseHecConfig o) as [cfg|e]; [|discriminate].
  inversion Hc; subst s' r. intros r0 c0 H0. simpl in *.
  destruct (decide (r0 = nextClient s)) as [->|Hne].
  - rewrite lookup_insert_eq in H0. inversion H0; subst c0. simpl. lia.
  - rewrite lookup_insert_ne in H0 by congruence.
    destruct (Hok r0 c0 H0). lia.
Qed.

Lemma clone_storeOk (s s' : Store) (this r : nat) (c : HecClient)
    (o : option (list (string * JsVal))) :
  storeOk s -> clients s !! this = Some c ->
  clone s this c o = Returns (s', r) -> storeOk s'.
Proof.
  intros Hok Hthis Hc. unfold Hec.clone in Hc.
  destruct o as [o|]; [|inversion Hc; subst; exact Hok].
  destruct (length (keys (removeEmtpyValues o)) =? 0)%nat;
    [inversion Hc; subst; exact Hok|].
  destruct (truthy (getProp "url" o) && differsFrom (getProp "url" o) (url (config c))).
  - exact (construct_storeOk s s' _ r Hok Hc).
  - destruct (construct s (deepMerge (config c) o)) as [[s1 r1]|e] eqn:Ec;
      [|discriminate].
    pose proof (construct_storeOk s s1 _ r1 Hok Ec) as Hok1.
    inversion Hc; subst s' r. intros r0 c0 H0. simpl in *.
    destruct (decide (r0 = r1)) as [->|Hne].
    + rewrite lookup_alter_eq in H0.
      destruct (clients s1 !! r1) as [k|] eqn:Ek; [|discriminate].
      inversion H0; subst c0. destruct (Hok1 r1 k Ek) as [H1 _].
      destruct (Hok this c Hthis) as [_ H2]. split; [exact H1|]. simpl.
      unfold Hec.construct in Ec. destruct (parseHecConfig _); [|discriminate].
      inversion Ec; subst s1. simpl. lia.
    + rewrite lookup_alter_ne in H0 by congruence. exact (Hok1 r0 c0 H0).
Qed.


End CloneSpec.

End HecCloneSpec.

(* ===================================================================== *)
(** ** Worked examples *)
(* ===================================================================== *)

Module Examples.
Import Hec.

(** A send under [maxRetries = 0] whose requests keep failing: after three
    failures it is at its fourth attempt, no retry counted, not settled. *)
Lemma sendToHec_attempts_beyond_maxRetries_at_zero :
  let c := newClient (sampleConfigWith (-1) 512000 0) 0 in
  let evs := [Responded 503 12; FetchFailed (JErr "socket hang up"); Responded 503 9] in
  let r := runSend (fst (sendToHec c [msgHello])) (snd (sendToHec c [msgHello])) evs in
  (phase (snd (sendToHec c [msgHello])) = AwaitFetch
   /\ maxRetries (config (fst (sendToHec c [msgHello])))
      < attempt (snd (sendToHec c [msgHello]))
   /\ forallb failedAttempt evs = true)
  /\ phase (snd r) = AwaitFetch
  /\ attempt (snd r) = 4
  /\ errorCount (counters (fst r)) = 3
  /\ retryCount (counters (fst r)) = 0
  /\ sentMessages (counters (fst r)) = 0.
Proof.
  cbv zeta.
  assert (H1 : phase (snd (sendToHec (newClient (sampleConfigWith (-1) 512000 0) 0)
                             [msgHello])) = AwaitFetch) by reflexivity.
  assert (H2 : maxRetries (config (fst (sendToHec
                 (newClient (sampleConfigWith (-1) 512000 0) 0) [msgHello])))
               < attempt (snd (sendToHec
                   (newClient (sampleConfigWith (-1) 512000 0) 0) [msgHello])))
    by (vm_compute; reflexivity).
  assert (H3 : forallb failedAttempt
                 [Responded 503 12; FetchFailed (JErr "socket hang up"); Responded 503 9]
               = true) by reflexivity.
  split; [split; [exact H1|split; [exact H2|exact H3]]|].
  exact (HecSendSpec.sendToHec_attempts_beyond_maxRetries _ _ _ H1 H2 H3).
Defined.

(** A flush cancelled by [shutdown] while it sleeps between two attempts:
    its promise is rejected with [new Error('Aborted')], which is an
    [Error] and not the [ABORT] symbol. *)
Lemma cancelled_flush_is_not_rejected_with_ABORT :
  let c1 := fst (flushInternal (stateOf (pushSerializedMsg sampleClient msgHello))) in
  let c2 := resume c1 0 (Responded 503 7) in
  let c3 := fst (shutdown c2 None) in
  let c4 := resume c3 0 Slept in
  phaseOf c1 0 = Some AwaitFetch
  /\ phaseOf c2 0 = Some (AwaitSleep 1)
  /\ (signalAborted <$> flushHandles c3 !! 0%nat) = Some true
  /\ phaseOf c4 0 = Some (Settled (Rejected (JErr "Aborted")))
  /\ phaseOf c4 0 <> Some (Settled (Rejected AsyncTasks.ABORT))
  /\ isError (JErr "Aborted") = true
  /\ isError AsyncTasks.ABORT = false.
Proof.
  cbv zeta. repeat split; try (vm_compute; reflexivity).
  vm_compute. discriminate.
Qed.

Lemma cancelled_flush_rejects_with_Error_Aborted_witness :
  let c1 := fst (flushInternal (stateOf (pushSerializedMsg sampleClient msgHello))) in
  let c2 := resume c1 0 (Responded 503 7) in
  let f := {| task := {| msgs := [msgHello]; rawBodySize := 5; bodySize := 5;
                         attempt := 1; phase := AwaitSleep 1 |};
              signalAborted := false |} in
  (flushHandles c2 !! 0%nat = Some f
   /\ 0%nat ∈ activeFlushing c2
   /\ phase (task f) = AwaitSleep 1)
  /\ phaseOf (resume (shutdown_finish c2) 0 Slept) 0
     = Some (Settled (Rejected (JErr "Aborted")))
  /\ (0%nat ∉ activeFlushing (resume (shutdown_finish c2) 0 Slept)).
Proof.
  cbv zeta.
  assert (H1 : flushHandles
                 (resume (fst (flushInternal
                                 (stateOf (pushSerializedMsg sampleClient msgHello))))
                    0 (Responded 503 7)) !! 0%nat
               = Some {| task := {| msgs := [msgHello]; rawBodySize := 5; bodySize := 5;
                                    attempt := 1; phase := AwaitSleep 1 |};
                         signalAborted := false |}) by (vm_compute; reflexivity).
  assert (H2 : 0%nat ∈ activeFlushing
                 (resume (fst (flushInternal
                                 (stateOf (pushSerializedMsg sampleClient msgHello))))
                    0 (Responded 503 7))) by (vm_compute; reflexivity).
  split; [split; [exact H1|split; [exact H2|reflexivity]]|].
  destruct (HecSendSpec.cancelled_flush_rejects_with_Error_Aborted _ 0%nat _ Slept H1 H2
              (or_intror (ex_intro _ 1 (conj eq_refl eq_refl))))
    as (Hp & Hn & _ & _).
  split; [exact Hp|exact Hn].
Defined.

(** With [maxQueueEntries = 0] a message larger than [maxQueueSize] pushed
    on a fresh client is dispatched at once: after the push the queue is
    empty, it does not hold the new message. *)
Lemma push_over_maxQueueSize_leaves_queue_empty :
  let c := newClient (sampleConfigWith 0 4 3) 0 in
  let c' := stateOf (pushSerializedMsg c msgHello) in
  active c = true
  /\ queueSizeBytes c + byteLength msgHello > maxQueueSize (config c)
  /\ pushSerializedMsg c msgHello = Normal c'
  /\ queue c' = []
  /\ queue c' <> [msgHello]
  /\ batchOf c' 0 = Some [msgHello].
Proof.
  cbv zeta. repeat split; try (vm_compute; reflexivity).
  vm_compute. discriminate.
Qed.

Lemma push_over_maxQueueSize_flushes_before_append_witness :
  let c := stateOf (pushSerializedMsg (newClient (sampleConfigWith (-1) 6 3) 0) msgHello) in
  (active c = true
   /\ queueSizeBytes c + byteLength msgAbc > maxQueueSize (config c))
  /\ exists c',
       pushSerializedMsg c msgAbc = Normal c'
       /\ batchOf c' 0 = Some [msgHello]
       /\ queue c' = [msgAbc]
       /\ queueSizeBytes c' = 3.
Proof.
  cbv zeta.
  assert (H1 : active (stateOf (pushSerializedMsg
                         (newClient (sampleConfigWith (-1) 6 3) 0) msgHello)) = true)
    by reflexivity.
  assert (H2 : sizeTracked (stateOf (pushSerializedMsg
                              (newClient (sampleConfigWith (-1) 6 3) 0) msgHello)))
    by (vm_compute; reflexivity).
  assert (H3 : queueSizeBytes (stateOf (pushSerializedMsg
                                 (newClient (sampleConfigWith (-1) 6 3) 0) msgHello))
               + byteLength msgAbc
               > maxQueueSize (config (stateOf (pushSerializedMsg
                                 (newClient (sampleConfigWith (-1) 6 3) 0) msgHello))))
    by (vm_compute; reflexivity).
  split; [split; [exact H1|exact H3]|].
  destruct (HecQueueSpec.push_over_maxQueueSize_flushes_before_append _ msgAbc H1 H3)
    as (c' & Hpush & Hold & Hkeep & _).
  exists c'. split; [exact Hpush|].
  destruct (Hold ltac:(discriminate)) as [Hb _].
  destruct (Hkeep (or_introl eq_refl)) as (Hq & Hsz & _).
  split; [exact Hb|]. split; [exact Hq|exact (Hsz H2)].
Defined.

(** With [maxQueueEntries = 0], [scheduleFlush] on a queue of one message
    flushes at once, although [maxQueueEntries] is not positive. *)
Lemma scheduleFlush_flushes_at_zero_maxQueueEntries :
  let c := setQueue (newClient (sampleConfigWith 0 512000 3) 0) [msgHello] 5 in
  ~ (0 < maxQueueEntries (config c))
  /\ scheduleFlush c = fst (flushInternal c)
  /\ queue (scheduleFlush c) = []
  /\ batchOf (scheduleFlush c) 0 = Some [msgHello]
  /\ 0%nat ∈ activeFlushing (scheduleFlush c)
  /\ flushTimer (scheduleFlush c) = None.
Proof.
  cbv zeta. split; [vm_compute; discriminate|].
  repeat split; vm_compute; reflexivity.
Qed.


(** The scenario of C6 on [sampleClient] ([maxRetries = 3], a constant
    wait of 1 ms, no gzip): two 503s, then a 200. *)
Lemma send_succeeds_after_two_failed_attempts_witness :
  let c := sampleClient in
  let batch := [msgHello; msgAbc] in
  let r := runSend (fst (sendToHec c batch)) (snd (sendToHec c batch))
             [Responded 503 10; Slept; Responded 503 11; Slept; Responded 200 12] in
  (maxRetries (config c) = 3
   /\ retryWaitTime (config c) = WaitConst 1
   /\ failedAttempt (Responded 503 10) = true
   /\ failedAttempt (Responded 503 11) = true
   /\ responseOk 200 = true)
  /\ phase (snd r) = Settled (Fulfilled tt)
  /\ attempt (snd r) = 3
  /\ errorCount (counters (fst r)) = 2
  /\ retryCount (counters (fst r)) = 2
  /\ sentMessages (counters (fst r)) = 2
  /\ sentBytes (counters (fst r)) = 8
  /\ transferredBytes (counters (fst r)) = 8.
Proof.
  cbv zeta.
  split; [repeat split|].
  destruct (HecSendSpec.send_succeeds_after_two_failed_attempts
              sampleClient [msgHello; msgAbc] [] 1
              (Responded 503 10) (Responded 503 11) 200 12
              eq_refl eq_refl eq_refl eq_refl eq_refl)
    as (Hp & Ha & _ & _ & He & Hr & Hm & Hb & Ht & _).
  split; [exact Hp|]. split; [exact Ha|]. split; [exact He|].
  split; [exact Hr|]. split; [exact Hm|]. split; [exact Hb|exact Ht].
Defined.




(** An abort handle in use: a first closure runs under token 0 and exits,
    a second runs under token 1 when the handle is aborted; after that
    [withAbort] is rejected at once and no closure is invoked. *)
Lemma abort_handle_run :
  let h1 := AsyncTasks.exec [AsyncTasks.OpWithAbort] AsyncTasks.newAbortHandle in
  let h2 := AsyncTasks.exec
              [AsyncTasks.OpExit 0 (Fulfilled (JNum 1)); AsyncTasks.OpWithAbort] h1 in
  let h3 := AsyncTasks.exec [AsyncTasks.OpAbort] h2 in
  elements (AsyncTasks.handles h1) = [0%nat]
  /\ elements (AsyncTasks.handles h2) = [1%nat]
  /\ elements (AsyncTasks.handles h3) = []
  /\ (AsyncTasks.dap_aborted <$> AsyncTasks.store h3 !! 1%nat) = Some true
  /\ (AsyncTasks.dap_aborted <$> AsyncTasks.store h3 !! 0%nat) = Some false
  /\ AsyncTasks.withAbort h3 = (h3, AsyncTasks.RejectedAtOnce AsyncTasks.ABORT)
  /\ AsyncTasks.invoked h3 = [1%nat; 0%nat].
Proof. cbv zeta. repeat split; vm_compute; reflexivity. Qed.

End Examples.

(* ===================================================================== *)
(** ** Properties of the HEC client over its runs *)
(* ===================================================================== *)

Module HecRunsSpec.
Import Hec HecRuns.

(* --------------------------------------------------------------------- *)
(** *** What one step does to the flush handles *)
(* --------------------------------------------------------------------- *)

(** The handle a flush of a non-empty queue creates. *)
Lemma flushInternal_new_handle (c : HecClient) :
  queue c <> [] ->
  exists t,
    flushHandles (fst (flushInternal c))
    = <[nextHandle c := {| task := t; signalAborted := false |}]> (flushHandles c)
    /\ msgs t = queue c
    /\ rawBodySize t = totalLength (queue c)
    /\ bodySize t = totalLength (queue c)
    /\ phase t = (if gzip (config c) then AwaitCompress else AwaitFetch).
Proof.
  intros Hq. unfold flushInternal, sendToHec, afterBody.
  destruct (flushTimer c); simpl; destruct (queue c) eqn:Eq; try congruence; simpl;
    destruct (gzip (config c)); simpl; eexists; (split; [reflexivity|]);
    repeat split; reflexivity.
Qed.

Lemma sendToHec_resume_task (c : HecClient) (ab : bool) (t : SendTask) (ev : Resume) :
  msgs (snd (sendToHec_resume c ab t ev)) = msgs t
  /\ rawBodySize (snd (sendToHec_resume c ab t ev)) = rawBodySize t
  /\ (phase t <> AwaitCompress ->
      bodySize (snd (sendToHec_resume c ab t ev)) = bodySize t
      /\ phase (snd (sendToHec_resume c ab t ev)) <> AwaitCompress).
Proof.
  unfold sendToHec_resume, onError, afterBody.
  destruct (phase t) eqn:Ep, ev; simpl;
    repeat match goal with
           | |- context [if ?b then _ else _] => destruct b; simpl
           end;
    rewrite ?Ep; repeat split; try congruence; try discriminate.
Qed.

(** A resumption either changes nothing (no such handle, or its send has
    settled), or replaces the task of the handle and, when that settles
    the send, takes the handle out of the active set. *)
Lemma resume_spec (c : HecClient) (h : nat) (ev : Resume) :
  resume c h ev = c
  \/ exists f,
       flushHandles c !! h = Some f
       /\ isSettled (phase (task f)) = false
       /\ flushHandles (resume c h ev)
          = <[h := {| task := snd (sendToHec_resume c (signalAborted f) (task f) ev);
                      signalAborted := signalAborted f |}]> (flushHandles c)
       /\ activeFlushing (resume c h ev)
          = (if isSettled (phase (snd (sendToHec_resume c (signalAborted f) (task f) ev)))
             then activeFlushing c ∖ {[h]} else activeFlushing c)
       /\ nextHandle (resume c h ev) = nextHandle c
       /\ counters (resume c h ev)
          = counters (fst (sendToHec_resume c (signalAborted f) (task f) ev)).
Proof.
  unfold resume. destruct (flushHandles c !! h) as [f|] eqn:El; [|left; reflexivity].
  pose proof (HecQueueSpec.sendToHec_resume_sameQueueing c (signalAborted f) (task f) ev)
    as (_ & Hact & Hhs & Hn).
  destruct (phase (task f)) eqn:Ep; [| | |left; reflexivity];
    right; exists f; (split; [reflexivity|]); rewrite Ep; (split; [reflexivity|]);
    destruct (sendToHec_resume c (signalAborted f) (task f) ev) as [c' t'];
    simpl in *; destruct (phase t'); simpl; rewrite ?Hact, ?Hhs, ?Hn;
    repeat split; reflexivity.
Qed.

Lemma resume_config (c : HecClient) (h : nat) (ev : Resume) :
  config (resume c h ev) = config c.
Proof. apply (HecQueueSpec.resume_sameQueueing c h ev). Qed.

Lemma cancelAll_batchOf (c : HecClient) (h : nat) :
  batchOf (cancelAll c) h = batchOf c h.
Proof.
  unfold batchOf. rewrite HecSendSpec.cancelAll_lookup.
  destruct (decide (h ∈ activeFlushing c)); [|reflexivity].
  destruct (flushHandles c !! h); reflexivity.
Qed.

Lemma resume_batchOf (c : HecClient) (h h' : nat) (ev : Resume) :
  batchOf (resume c h ev) h' = batchOf c h'.
Proof.
  destruct (resume_spec c h ev) as [->|(f & Hl & _ & Hhs & _)]; [reflexivity|].
  unfold batchOf. rewrite Hhs. destruct (decide (h' = h)) as [->|Hne].
  - rewrite lookup_insert_eq, Hl. simpl.
    destruct (sendToHec_resume_task c (signalAborted f) (task f) ev) as [-> _].
    reflexivity.
  - rewrite lookup_insert_ne by congruence. reflexivity.
Qed.

(* --------------------------------------------------------------------- *)
(** *** No message is lost, duplicated or reordered *)
(* --------------------------------------------------------------------- *)

Lemma allMessages_ext (c c' : HecClient) :
  nextHandle c' = nextHandle c ->
  (forall h, batchOf c' h = batchOf c h) ->
  queue c' = queue c ->
  allMessages c' = allMessages c.
Proof.
  intros Hn Hb Hq. unfold allMessages, batches. rewrite Hn, Hq. f_equal. f_equal.
  apply map_ext. intros h. rewrite Hb. reflexivity.
Qed.

Lemma batches_flushInternal (c : HecClient) :
  queue c <> [] -> batches (fst (flushInternal c)) = batches c ++ [queue c].
Proof.
  intros Hq.
  destruct (HecQueueSpec.flushInternal_dispatch c Hq) as (_ & Hb & _ & Hn & Hother).
  unfold batches. rewrite Hn, seq_S, map_app. simpl. f_equal.
  - apply map_ext_in. intros h Hin. apply in_seq in Hin.
    unfold batchOf. rewrite Hother by lia. reflexivity.
  - rewrite Hb. reflexivity.
Qed.

Lemma allMessages_flushInternal (c : HecClient) :
  allMessages (fst (flushInternal c)) = allMessages c.
Proof.
  destruct (queue c) as [|m q] eqn:Eq.
  - destruct (HecQueueSpec.flushInternal_empty_flushes c Eq) as (_ & Hhs & Hn).
    apply allMessages_ext; [exact Hn| |].
    + intros h. unfold batchOf. rewrite Hhs. reflexivity.
    + rewrite HecQueueSpec.flushInternal_queue, Eq. reflexivity.
  - assert (Hne : queue c <> []) by (rewrite Eq; discriminate).
    unfold allMessages.
    rewrite (batches_flushInternal c Hne), HecQueueSpec.flushInternal_queue.
    rewrite concat_app. simpl. rewrite !app_nil_r. reflexivity.
Qed.

Lemma allMessages_scheduleFlush (c : HecClient) :
  allMessages (scheduleFlush c) = allMessages c.
Proof.
  unfold scheduleFlush.
  destruct (negb (maxQueueEntries (config c) =? -1)
            && (Z.of_nat (length (queue c)) >? maxQueueEntries (config c))).
  - apply allMessages_flushInternal.
  - destruct (flushTimer c); reflexivity.
Qed.

Lemma allMessages_appended (c : HecClient) (m : SerializedHecMsg) :
  allMessages (appended c m) = allMessages c ++ [m].
Proof.
  unfold appended. cbv zeta.
  set (c1 := setCounters c (addQueued (counters c) (byteLength m))).
  assert (H1 : allMessages c1 = allMessages c) by reflexivity.
  destruct (queueSizeBytes c1 + byteLength m >? maxQueueSize (config c1)).
  - change (concat (batches (fst (flushInternal c1)))
            ++ (queue (fst (flushInternal c1)) ++ [m]) = allMessages c ++ [m]).
    rewrite app_assoc. fold (allMessages (fst (flushInternal c1))).
    rewrite allMessages_flushInternal, H1. reflexivity.
  - change (concat (batches c1) ++ (queue c1 ++ [m]) = allMessages c ++ [m]).
    rewrite app_assoc. fold (allMessages c1). rewrite H1. reflexivity.
Qed.

Lemma allMessages_pushSerializedMsg (c : HecClient) (m : SerializedHecMsg) :
  allMessages (stateOf (pushSerializedMsg c m))
  = allMessages c ++ (if active c then [m] else []).
Proof.
  destruct (active c) eqn:Ha.
  - rewrite (HecQueueSpec.pushSerializedMsg_active c m Ha). simpl.
    rewrite allMessages_scheduleFlush. apply allMessages_appended.
  - rewrite (HecQueueSpec.pushSerializedMsg_inactive c m Ha). simpl.
    rewrite app_nil_r. reflexivity.
Qed.

Lemma scheduleFlush_config (c : HecClient) : config (scheduleFlush c) = config c.
Proof.
  unfold scheduleFlush.
  destruct (negb (maxQueueEntries (config c) =? -1)
            && (Z.of_nat (length (queue c)) >? maxQueueEntries (config c))).
  - apply HecQueueSpec.flushInternal_config.
  - destruct (flushTimer c); reflexivity.
Qed.

Lemma appended_config (c : HecClient) (m : SerializedHecMsg) :
  config (appended c m) = config c /\ active (appended c m) = active c.
Proof.
  unfold appended. cbv zeta.
  destruct (queueSizeBytes _ + byteLength m >? maxQueueSize _); simpl.
  - rewrite HecQueueSpec.flushInternal_config, HecQueueSpec.flushInternal_active.
    split; reflexivity.
  - split; reflexivity.
Qed.

Lemma pushSerializedMsg_config (c : HecClient) (m : SerializedHecMsg) :
  config (stateOf (pushSerializedMsg c m)) = config c
  /\ active (stateOf (pushSerializedMsg c m)) = active c.
Proof.
  destruct (active c) eqn:Ha.
  - rewrite (HecQueueSpec.pushSerializedMsg_active c m Ha). simpl.
    rewrite scheduleFlush_config, HecQueueSpec.scheduleFlush_active.
    destruct (appended_config c m) as [-> ->]. split; [reflexivity|exact Ha].
  - rewrite (HecQueueSpec.pushSerializedMsg_inactive c m Ha). simpl.
    split; [reflexivity|exact Ha].
Qed.

Lemma shutdown_finish_batchOf (c : HecClient) (h : nat) :
  batchOf (shutdown_finish c) h = batchOf c h.
Proof.
  unfold shutdown_finish. destruct (0 <? size (activeFlushing c))%nat;
    [apply cancelAll_batchOf|reflexivity].
Qed.

Lemma shutdown_finish_nextHandle (c : HecClient) :
  nextHandle (shutdown_finish c) = nextHandle c
  /\ activeFlushing (shutdown_finish c) = activeFlushing c
  /\ counters (shutdown_finish c) = counters c.
Proof.
  unfold shutdown_finish. destruct (0 <? size (activeFlushing c))%nat;
    repeat split; reflexivity.
Qed.

Lemma allMessages_shutdown_finish (c : HecClient) :
  allMessages (shutdown_finish c) = allMessages c.
Proof.
  apply allMessages_ext.
  - apply shutdown_finish_nextHandle.
  - apply shutdown_finish_batchOf.
  - apply (HecQueueSpec.shutdown_finish_sameQueueing c).
Qed.

Lemma allMessages_resume (c : HecClient) (h : nat) (ev : Resume) :
  allMessages (resume c h ev) = allMessages c.
Proof.
  apply allMessages_ext.
  - destruct (resume_spec c h ev) as [->|(f & _ & _ & _ & _ & Hn & _)];
      [reflexivity|exact Hn].
  - intros h'. apply resume_batchOf.
  - apply (HecQueueSpec.resume_sameQueueing c h ev).
Qed.

Lemma shutdown_cases (c : HecClient) (maxTime : option Z) :
  fst (shutdown c maxTime) = fst (flushInternal (setActive c false))
  \/ fst (shutdown c maxTime) = shutdown_finish (setActive c false).
Proof.
  unfold shutdown. destruct maxTime as [ms|]; [|right; reflexivity].
  destruct ((0 <? size (activeFlushing (setActive c false)))%nat
            || (0 <? length (queue (setActive c false)))%nat);
    [left|right; reflexivity].
  simpl. apply HecQueueSpec.flush_state.
Qed.

Section Runs.

Context {Event Metric MetricsRest MetricValue : Type}.
Variable serializeEvent : Event -> JsVal -> JsVal -> SerializedHecMsg.
Variable serializeMetric : Metric -> JsVal -> JsVal -> SerializedHecMsg.
Variable serializeMetrics :
  MultiMetrics MetricsRest MetricValue -> JsVal -> JsVal -> SerializedHecMsg.
Variable mkMetric : MetricsRest -> string -> MetricValue -> Metric.

Local Abbreviation step :=
  (clientStep serializeEvent serializeMetric serializeMetrics mkMetric).
Local Abbreviation run :=
  (clientExec serializeEvent serializeMetric serializeMetrics mkMetric).
Local Abbreviation ClientOp := (Hec.ClientOp Event Metric MetricsRest MetricValue).
Local Abbreviation offered := (HecRuns.offered serializeEvent serializeMetric
                                 serializeMetrics mkMetric).
Local Abbreviation offeredEach := (HecRuns.offeredEach serializeMetric mkMetric).
Local Abbreviation accepted := (HecRuns.accepted serializeEvent serializeMetric
                                  serializeMetrics mkMetric).

(** An invariant of the building blocks is an invariant of every
    operation. *)
Lemma step_preserves (P : HecClient -> Prop) :
  (forall c m, P c -> P (stateOf (pushSerializedMsg c m))) ->
  (forall c, P c -> P (fst (flushInternal c))) ->
  (forall c h ev, P c -> P (resume c h ev)) ->
  (forall c, P c -> P (snd (flushStats c))) ->
  (forall c, P c -> P (setActive c false)) ->
  (forall c, P c -> P (shutdown_finish c)) ->
  forall c (op : ClientOp), P c -> P (step c op).
Proof.
  intros Hpush Hflush Hresume Hstats Hoff Hfin c op Hc.
  destruct op as [msg|e|m|mm| | | |h ev| |maxTime|]; simpl.
  - destruct msg as [e|m]; apply Hpush, Hc.
  - apply Hpush, Hc.
  - apply Hpush, Hc.
  - unfold pushMetrics. destruct (multipleMetricFormatEnabled (config c));
      [apply Hpush, Hc|].
    generalize (rest mm). intros r. revert c Hc.
    induction (measurements mm) as [|[name [value|]] tl IH]; intros c Hc; simpl.
    + exact Hc.
    + unfold pushMetric.
      pose proof (Hpush c (serializeMetric (mkMetric r name value)
                             (defaultMetadata (config c)) (defaultFields (config c)))
                    Hc) as H1.
      destruct (pushSerializedMsg c _) as [c1|e c1]; simpl in *; [apply IH, H1|exact H1].
    + apply IH, Hc.
  - rewrite HecQueueSpec.flush_state. apply Hflush, Hc.
  - apply Hflush, Hc.
  - destruct (HecQueueSpec.timerFires_cases c) as [-> | ->]; [apply Hflush, Hc|exact Hc].
  - apply Hresume, Hc.
  - apply Hstats, Hc.
  - destruct (shutdown_cases c maxTime) as [-> | ->];
      [apply Hflush, Hoff, Hc|apply Hfin, Hoff, Hc].
  - apply Hfin, Hc.
Qed.

Lemma run_preserves (P : HecClient -> Prop) :
  (forall c (op : ClientOp), P c -> P (step c op)) ->
  forall (ops : list ClientOp) c, P c -> P (run ops c).
Proof.
  intros Hstep ops. induction ops as [|op ops IH]; intros c Hc; [exact Hc|].
  apply IH, Hstep, Hc.
Qed.

Lemma pushEach_messages (entries : list (string * option MetricValue))
    (r : MetricsRest) (c : HecClient) :
  allMessages (stateOf (pushEach serializeMetric mkMetric c r entries))
  = allMessages c ++ (if active c then offeredEach (config c) r entries else [])
  /\ config (stateOf (pushEach serializeMetric mkMetric c r entries)) = config c
  /\ active (stateOf (pushEach serializeMetric mkMetric c r entries)) = active c.
Proof.
  revert c. induction entries as [|[name [value|]] tl IH]; intros c; simpl.
  - destruct (active c); rewrite app_nil_r; repeat split.
  - unfold pushMetric.
    set (m := serializeMetric (mkMetric r name value)
                (defaultMetadata (config c)) (defaultFields (config c))).
    pose proof (allMessages_pushSerializedMsg c m) as Hm.
    pose proof (pushSerializedMsg_config c m) as [Hcfg Hact].
    destruct (active c) eqn:Ha.
    + rewrite (HecQueueSpec.pushSerializedMsg_active c m Ha) in *. simpl in *.
      destruct (IH (scheduleFlush (appended c m))) as (H1 & H2 & H3).
      rewrite H1, H2, H3, Hm, Hcfg, Hact. unfold HecRuns.offeredEach. simpl.
      fold m. rewrite <- app_assoc. repeat split.
    + rewrite (HecQueueSpec.pushSerializedMsg_inactive c m Ha). simpl.
      rewrite app_nil_r. repeat split. exact Ha.
  - destruct (IH c) as (H1 & H2 & H3). rewrite H1, H2, H3.
    unfold HecRuns.offeredEach. simpl. repeat split.
Qed.

(** One operation: the configuration stays, the client stays active
    unless the operation is [shutdown], and the messages held or sent off
    grow by what an active client was offered. *)
Lemma step_messages (c : HecClient) (op : ClientOp) :
  allMessages (step c op)
  = allMessages c ++ (if active c then offered (config c) op else [])
  /\ config (step c op) = config c
  /\ active (step c op) = active c && negb (isShutdown op).
Proof.
  assert (Hnil : forall l : list SerializedHecMsg,
             l = l ++ (if active c then [] else [])).
  { intros l. destruct (active c); rewrite app_nil_r; reflexivity. }
  destruct op as [msg|e|m|mm| | | |h ev| |maxTime|]; simpl; rewrite ?andb_true_r.
  - destruct msg as [e|m]; simpl;
      (split; [apply allMessages_pushSerializedMsg|apply pushSerializedMsg_config]).
  - split; [apply allMessages_pushSerializedMsg|apply pushSerializedMsg_config].
  - split; [apply allMessages_pushSerializedMsg|apply pushSerializedMsg_config].
  - unfold pushMetrics. destruct (multipleMetricFormatEnabled (config c)).
    + split; [apply allMessages_pushSerializedMsg|apply pushSerializedMsg_config].
    + apply pushEach_messages.
  - rewrite HecQueueSpec.flush_state, allMessages_flushInternal,
      HecQueueSpec.flushInternal_config, HecQueueSpec.flushInternal_active.
    split; [apply Hnil|split; reflexivity].
  - rewrite allMessages_flushInternal,
      HecQueueSpec.flushInternal_config, HecQueueSpec.flushInternal_active.
    split; [apply Hnil|split; reflexivity].
  - destruct (HecQueueSpec.timerFires_cases c) as [-> | ->].
    + rewrite allMessages_flushInternal,
        HecQueueSpec.flushInternal_config, HecQueueSpec.flushInternal_active.
      split; [apply Hnil|split; reflexivity].
    + split; [apply Hnil|split; reflexivity].
  - rewrite allMessages_resume, resume_config.
    destruct (HecQueueSpec.resume_sameQueueing c h ev) as (_ & _ & -> & _).
    split; [apply Hnil|split; reflexivity].
  - split; [apply Hnil|split; reflexivity].
  - rewrite andb_false_r. rewrite HecQueueSpec.shutdown_active.
    destruct (shutdown_cases c maxTime) as [-> | ->].
    + rewrite allMessages_flushInternal, HecQueueSpec.flushInternal_config.
      split; [apply Hnil|split; reflexivity].
    + rewrite allMessages_shutdown_finish.
      destruct (HecQueueSpec.shutdown_finish_sameQueueing (setActive c false))
        as (_ & _ & _ & -> & _).
      split; [apply Hnil|split; reflexivity].
  - rewrite allMessages_shutdown_finish.
    destruct (HecQueueSpec.shutdown_finish_sameQueueing c) as (_ & _ & -> & -> & _).
    split; [apply Hnil|split; reflexivity].
Qed.


(* --------------------------------------------------------------------- *)
(** *** The queued counters *)
(* --------------------------------------------------------------------- *)





Lemma totalLength_cons (m : SerializedHecMsg) (q : list SerializedHecMsg) :
  totalLength (m :: q) = byteLength m + totalLength q.
Proof. reflexivity. Qed.





End Runs.

(* --------------------------------------------------------------------- *)
(** *** What every client keeps *)
(* --------------------------------------------------------------------- *)

(** The conditions on the flush handles only look at the active set, the
    tasks behind the handles and the next free handle. *)
Lemma flights_ext (c c' : HecClient) :
  activeFlushing c' = activeFlushing c ->
  nextHandle c' = nextHandle c ->
  config c' = config c ->
  (forall h, task <$> flushHandles c' !! h = task <$> flushHandles c !! h) ->
  flightsOk c
  /\ (forall h f, flushHandles c !! h = Some f -> taskOk (config c) (task f)) ->
  flightsOk c'
  /\ (forall h f, flushHandles c' !! h = Some f -> taskOk (config c') (task f)).
Proof.
  intros Ha Hn Hcfg Ht [[Hact Hdom] Htasks].
  split; [split|].
  - intros h. rewrite Ha, Hact. specialize (Ht h).
    destruct (flushHandles c' !! h) as [f'|], (flushHandles c !! h) as [f|];
      simpl in Ht; try discriminate.
    + inversion Ht as [Heq]. split; intros (g & Hg & Hs); inversion Hg; subst g;
        eexists; (split; [reflexivity|]); congruence.
    + split; intros (g & Hg & _); discriminate.
  - intros h. rewrite Hn, <- Hdom. specialize (Ht h).
    destruct (flushHandles c' !! h), (flushHandles c !! h); simpl in Ht;
      try discriminate; split; intros [g Hg]; try discriminate; eexists; reflexivity.
  - intros h f' Hf'. rewrite Hcfg. specialize (Ht h). rewrite Hf' in Ht.
    destruct (flushHandles c !! h) as [f|] eqn:Ef; simpl in Ht; [|discriminate].
    inversion Ht as [Heq]. rewrite Heq. exact (Htasks h f Ef).
Qed.

Lemma queueWithin_batchWithin (cfg : CookedHecConfig) (q : list SerializedHecMsg) :
  queueWithin cfg q -> batchWithin cfg q.
Proof. intros [Hb He]. split; [exact Hb|]. intros Hm. specialize (He Hm). lia. Qed.

Lemma queueWithin_nil (cfg : CookedHecConfig) : queueWithin cfg [].
Proof. split; [left; simpl; lia|]. intros _. simpl. lia. Qed.

(** A flush of a queue within the limits of a batch restores everything. *)
Lemma flushInternal_ok (c : HecClient) :
  sizeTracked c ->
  batchWithin (config c) (queue c) ->
  flightsOk c ->
  (forall h f, flushHandles c !! h = Some f -> taskOk (config c) (task f)) ->
  clientOk (fst (flushInternal c)).
Proof.
  intros Hs Hb Hf Ht.
  split; [apply HecQueueSpec.sizeTracked_flushInternal, Hs|].
  split; [rewrite HecQueueSpec.flushInternal_queue; apply queueWithin_nil|].
  split.
  { unfold timerOk. rewrite HecQueueSpec.flushInternal_flushTimer,
      HecQueueSpec.flushInternal_queue. split; reflexivity. }
  destruct (queue c) as [|m q] eqn:Eq.
  - destruct (HecQueueSpec.flushInternal_empty_flushes c Eq) as (Ha & Hhs & Hn).
    apply (flights_ext c); try assumption.
    + apply HecQueueSpec.flushInternal_config.
    + intros h. rewrite Hhs. reflexivity.
    + split; assumption.
  - assert (Hne : queue c <> []) by (rewrite Eq; discriminate).
    destruct (HecQueueSpec.flushInternal_dispatch c Hne) as (_ & _ & Ha & Hn & _).
    destruct (flushInternal_new_handle c Hne) as (t & Hhs & Hm & Hraw & Hbody & Hph).
    destruct Hf as [Hact Hdom].
    assert (Hunsettled : isSettled (phase t) = false)
      by (rewrite Hph; destruct (gzip (config c)); reflexivity).
    split; [split|].
    + intros h. rewrite Ha, Hhs. destruct (decide (h = nextHandle c)) as [->|Hneq].
      * rewrite lookup_insert_eq. split.
        -- intros _. eexists. split; [reflexivity|exact Hunsettled].
        -- intros _. apply elem_of_union_l, elem_of_singleton. reflexivity.
      * rewrite lookup_insert_ne by congruence. rewrite <- Hact. split.
        -- intros Hin. apply elem_of_union in Hin as [Hin|Hin]; [|exact Hin].
           apply elem_of_singleton in Hin. contradiction.
        -- intros Hin. apply elem_of_union_r, Hin.
    + intros h. rewrite Hn, Hhs. destruct (decide (h = nextHandle c)) as [->|Hneq].
      * rewrite lookup_insert_eq. split; [intros _; lia|intros _; eexists; reflexivity].
      * rewrite lookup_insert_ne by congruence. rewrite Hdom. lia.
    + intros h f. rewrite Hhs, HecQueueSpec.flushInternal_config.
      destruct (decide (h = nextHandle c)) as [->|Hneq].
      * rewrite lookup_insert_eq. intros Hf. inversion Hf; subst f. simpl.
        rewrite <- Eq in *. unfold taskOk. rewrite Hm, Hraw, Hbody, Hph.
        split; [exact Hne|]. split; [reflexivity|]. split; [|exact Hb].
        intros Hg. rewrite Hg. split; [reflexivity|discriminate].
      * rewrite lookup_insert_ne by congruence. apply Ht.
Qed.

Lemma clientOk_flushInternal (c : HecClient) :
  clientOk c -> clientOk (fst (flushInternal c)).
Proof.
  intros (Hs & Hq & _ & Hf & Ht).
  apply flushInternal_ok; try assumption. apply queueWithin_batchWithin, Hq.
Qed.

Lemma clientOk_new (cfg : CookedHecConfig) (agent : nat) :
  clientOk (newClient cfg agent).
Proof.
  split; [reflexivity|]. split; [apply queueWithin_nil|].
  split; [split; reflexivity|]. split; [split|].
  - intros h. simpl. split.
    + intros Hin. exfalso. exact (not_elem_of_empty h Hin).
    + intros (f & Hf & _). rewrite lookup_empty in Hf. discriminate.
  - intros h. simpl. rewrite lookup_empty. split; [intros [f Hf]; discriminate|lia].
  - intros h f Hf. simpl in Hf. rewrite lookup_empty in Hf. discriminate.
Qed.

Lemma clientOk_same (c c' : HecClient) :
  sameQueueing c c' ->
  activeFlushing c' = activeFlushing c ->
  nextHandle c' = nextHandle c ->
  (forall h, task <$> flushHandles c' !! h = task <$> flushHandles c !! h) ->
  clientOk c -> clientOk c'.
Proof.
  intros Hsame Ha Hn Ht (Hs & Hq & Htm & Hf & Htasks).
  pose proof Hsame as (Hqq & Hsz & _ & Hcfg & Htimer).
  split; [exact (HecQueueSpec.sizeTracked_same c c' Hsame Hs)|].
  split; [rewrite Hcfg, Hqq; exact Hq|].
  split; [unfold timerOk; rewrite Htimer, Hqq; exact Htm|].
  apply (flights_ext c); try assumption. split; assumption.
Qed.

Lemma clientOk_pushSerializedMsg (c : HecClient) (m : SerializedHecMsg) :
  clientOk c -> clientOk (stateOf (pushSerializedMsg c m)).
Proof.
  intros Hc. destruct (active c) eqn:Hact;
    [|rewrite (HecQueueSpec.pushSerializedMsg_inactive c m Hact); exact Hc].
  rewrite (HecQueueSpec.pushSerializedMsg_active c m Hact). simpl stateOf.
  (* the state before the append *)
  set (c1 := setCounters c (addQueued (counters c) (byteLength m))).
  assert (H1 : clientOk c1) by exact Hc.
  set (over := queueSizeBytes c1 + byteLength m >? maxQueueSize (config c1)).
  set (c2 := if over then fst (flushInternal c1) else c1).
  assert (H2 : clientOk c2).
  { unfold c2. destruct over; [apply clientOk_flushInternal, H1|exact H1]. }
  assert (Hcfg2 : config c2 = config c).
  { unfold c2. destruct over; [rewrite HecQueueSpec.flushInternal_config|];
      reflexivity. }
  assert (Hbytes : (length (queue c2 ++ [m]) <= 1)%nat
                   \/ totalLength (queue c2 ++ [m]) <= maxQueueSize (config c)).
  { unfold c2. destruct over eqn:Eo.
    - left. rewrite HecQueueSpec.flushInternal_queue. simpl. lia.
    - right. unfold over in Eo. rewrite Z.gtb_ltb in Eo. apply Z.ltb_ge in Eo.
      destruct H1 as (Hs1 & _). unfold sizeTracked in Hs1.
      rewrite HecQueueSpec.totalLength_app, HecQueueSpec.totalLength_single, <- Hs1.
      exact Eo. }
  set (c3 := appended c m).
  assert (E3 : c3 = setQueue c2 (queue c2 ++ [m]) (queueSizeBytes c2 + byteLength m))
    by reflexivity.
  destruct H2 as (Hs2 & Hq2 & _ & Hf2 & Ht2).
  assert (Hs3 : sizeTracked c3) by (apply HecQueueSpec.sizeTracked_appended, Hc).
  assert (Hb3 : batchWithin (config c3) (queue c3)).
  { rewrite E3. simpl. rewrite Hcfg2. split; [exact Hbytes|].
    intros Hm. destruct Hq2 as [_ He]. rewrite Hcfg2 in He. specialize (He Hm).
    rewrite length_app. simpl. lia. }
  assert (Hf3 : flightsOk c3) by (rewrite E3; exact Hf2).
  assert (Ht3 : forall h f, flushHandles c3 !! h = Some f -> taskOk (config c3) (task f))
    by (rewrite E3; exact Ht2).
  assert (Hne3 : queue c3 <> []).
  { rewrite E3. simpl. destruct (queue c2); discriminate. }
  destruct (decide (entriesTrigger c3)) as [Htr|Htr].
  - rewrite (HecQueueSpec.scheduleFlush_triggered c3 Htr).
    apply flushInternal_ok; assumption.
  - destruct (HecQueueSpec.scheduleFlush_arms_timer c3 Htr)
      as (Hq & Hsz & Ha & Hhs & Htimer).
    assert (Hcfg : config (scheduleFlush c3) = config c3) by apply scheduleFlush_config.
    split; [unfold sizeTracked; rewrite Hq, Hsz; exact Hs3|].
    split.
    { rewrite Hcfg, Hq. destruct Hb3 as [Hb He]. split; [exact Hb|].
      intros Hm. unfold entriesTrigger in Htr.
      destruct (Z_gt_dec (Z.of_nat (length (queue c3))) (maxQueueEntries (config c3)))
        as [Hgt|Hle]; [exfalso; apply Htr; split; assumption|lia]. }
    split.
    { unfold timerOk. rewrite Hq. split; [intros Hn; contradiction|].
      intros Hn. contradiction. }
    apply (flights_ext c3); try assumption.
    + rewrite (HecQueueSpec.scheduleFlush_not_triggered c3 Htr).
      destruct (flushTimer c3); reflexivity.
    + intros h. rewrite Hhs. reflexivity.
    + split; assumption.
Qed.

Lemma cancelAll_task (c : HecClient) (h : nat) :
  task <$> flushHandles (cancelAll c) !! h = task <$> flushHandles c !! h.
Proof.
  rewrite HecSendSpec.cancelAll_lookup.
  destruct (decide (h ∈ activeFlushing c)); [|reflexivity].
  destruct (flushHandles c !! h); reflexivity.
Qed.

Lemma clientOk_shutdown_finish (c : HecClient) :
  clientOk c -> clientOk (shutdown_finish c).
Proof.
  intros Hc. apply (clientOk_same c); try assumption.
  - apply HecQueueSpec.shutdown_finish_sameQueueing.
  - apply shutdown_finish_nextHandle.
  - apply shutdown_finish_nextHandle.
  - intros h. unfold shutdown_finish. destruct (0 <? size (activeFlushing c))%nat;
      [apply cancelAll_task|reflexivity].
Qed.

Lemma clientOk_resume (c : HecClient) (h : nat) (ev : Resume) :
  clientOk c -> clientOk (resume c h ev).
Proof.
  intros Hc.
  destruct (resume_spec c h ev) as [->|(f & Hl & Hun & Hhs & Ha & Hn & _)];
    [exact Hc|].
  pose proof (HecQueueSpec.resume_sameQueueing c h ev) as Hsame.
  pose proof Hsame as (Hqq & Hsz & _ & Hcfg & Htimer).
  destruct Hc as (Hs & Hq & Htm & [Hact Hdom] & Ht).
  set (t' := snd (sendToHec_resume c (signalAborted f) (task f) ev)) in *.
  split; [exact (HecQueueSpec.sizeTracked_same _ _ Hsame Hs)|].
  split; [rewrite Hcfg, Hqq; exact Hq|].
  split; [unfold timerOk; rewrite Htimer, Hqq; exact Htm|].
  split; [split|].
  - intros h'. rewrite Ha, Hhs. destruct (decide (h' = h)) as [->|Hne].
    + rewrite lookup_insert_eq. simpl. destruct (isSettled (phase t')) eqn:Es.
      * split.
        -- intros Hin. apply elem_of_difference in Hin as [_ Hin].
           exfalso. apply Hin, elem_of_singleton. reflexivity.
        -- intros (g & Hg & Hgs). inversion Hg; subst g. simpl in Hgs. congruence.
      * split.
        -- intros _. eexists. split; [reflexivity|exact Es].
        -- intros _. apply Hact. exists f. split; assumption.
    + rewrite lookup_insert_ne by congruence. rewrite <- Hact.
      destruct (isSettled (phase t')); [|reflexivity]. split.
      * intros Hin. apply elem_of_difference in Hin as [Hin _]. exact Hin.
      * intros Hin. apply elem_of_difference. split; [exact Hin|].
        intros Hx. apply elem_of_singleton in Hx. contradiction.
  - intros h'. rewrite Hn, Hhs, <- Hdom. destruct (decide (h' = h)) as [->|Hne].
    + rewrite lookup_insert_eq, Hl. split; intros _; eexists; reflexivity.
    + rewrite lookup_insert_ne by congruence. reflexivity.
  - intros h' g. rewrite Hhs, Hcfg. destruct (decide (h' = h)) as [->|Hne].
    + rewrite lookup_insert_eq. intros Hg. inversion Hg; subst g. simpl.
      destruct (Ht h f Hl) as (Hm & Hraw & Hz & Hb).
      destruct (sendToHec_resume_task c (signalAborted f) (task f) ev)
        as (Em & Eraw & Ebody).
      fold t' in Em, Eraw, Ebody. unfold taskOk. rewrite Em, Eraw.
      split; [exact Hm|]. split; [exact Hraw|]. split; [|exact Hb].
      intros Hg0. destruct (Hz Hg0) as [Hbs Hph].
      destruct (Ebody Hph) as [Eb Ep]. rewrite Eb. split; [exact Hbs|exact Ep].
    + rewrite lookup_insert_ne by congruence. apply Ht.
Qed.

Section Kept.

Context {Event Metric MetricsRest MetricValue : Type}.
Variable serializeEvent : Event -> JsVal -> JsVal -> SerializedHecMsg.
Variable serializeMetric : Metric -> JsVal -> JsVal -> SerializedHecMsg.
Variable serializeMetrics :
  MultiMetrics MetricsRest MetricValue -> JsVal -> JsVal -> SerializedHecMsg.
Variable mkMetric : MetricsRest -> string -> MetricValue -> Metric.

Local Abbreviation step :=
  (clientStep serializeEvent serializeMetric serializeMetrics mkMetric).
Local Abbreviation run :=
  (clientExec serializeEvent serializeMetric serializeMetrics mkMetric).
Local Abbreviation ClientOp := (Hec.ClientOp Event Metric MetricsRest MetricValue).

Lemma clientOk_run (ops : list ClientOp) (c : HecClient) :
  clientOk c -> clientOk (run ops c).
Proof.
  apply run_preserves. apply step_preserves.
  - apply clientOk_pushSerializedMsg.
  - apply clientOk_flushInternal.
  - apply clientOk_resume.
  - intros k Hk. exact Hk.
  - intros k Hk. exact Hk.
  - apply clientOk_shutdown_finish.
Qed.

Lemma config_run (ops : list ClientOp) (c : HecClient) :
  config (run ops c) = config c.
Proof.
  revert c. induction ops as [|op ops IH]; intros c; [reflexivity|].
  change (clientExec serializeEvent serializeMetric serializeMetrics mkMetric
            (op :: ops) c) with (run ops (step c op)).
  rewrite IH. apply (step_messages serializeEvent serializeMetric serializeMetrics
                       mkMetric c op).
Qed.

Lemma reachable_ok (cfg : CookedHecConfig) (agent : nat) (ops : list ClientOp) :
  clientOk (run ops (newClient cfg agent))
  /\ config (run ops (newClient cfg agent)) = cfg.
Proof.
  split; [apply clientOk_run, clientOk_new|]. rewrite config_run. reflexivity.
Qed.

Lemma batches_Forall (P : list SerializedHecMsg -> Prop) (c : HecClient) :
  flightsOk c ->
  (forall h f, flushHandles c !! h = Some f -> P (msgs (task f))) ->
  Forall P (batches c).
Proof.
  intros [_ Hdom] HP. unfold batches. apply Forall_forall. intros b Hb.
  apply list_elem_of_In, in_map_iff in Hb as (h & <- & Hin). apply in_seq in Hin.
  assert (Hs : is_Some (flushHandles c !! h)) by (apply Hdom; lia).
  destruct Hs as [f Hf]. unfold batchOf. rewrite Hf. simpl. exact (HP h f Hf).
Qed.


(** X3. No batch is ever empty: every send was started with at least one
    message. *)
Theorem no_batch_is_empty
    (cfg : CookedHecConfig) (agent : nat) (ops : list ClientOp) :
  Forall (fun b => b <> []) (batches (run ops (newClient cfg agent))).
Proof.
  destruct (reachable_ok cfg agent ops) as [(_ & _ & _ & Hf & Ht) _].
  apply batches_Forall; [exact Hf|]. intros h f Hl. apply (Ht h f Hl).
Qed.

(** X4. A batch, and the queue between two operations, hold more than one
    message only if their messages together are within [maxQueueSize]
    bytes: the byte limit is exceeded by a single message at most. *)
Theorem only_a_single_message_exceeds_maxQueueSize
    (cfg : CookedHecConfig) (agent : nat) (ops : list ClientOp) :
  let c := run ops (newClient cfg agent) in
  Forall (fun b => (length b <= 1)%nat \/ totalLength b <= maxQueueSize cfg) (batches c)
  /\ ((length (queue c) <= 1)%nat \/ queueSizeBytes c <= maxQueueSize cfg).
Proof.
  intros c. destruct (reachable_ok cfg agent ops) as [(Hs & Hq & _ & Hf & Ht) Hcfg].
  fold c in Hs, Hq, Hf, Ht, Hcfg. rewrite Hcfg in *. split.
  - apply batches_Forall; [exact Hf|]. intros h f Hl.
    destruct (Ht h f Hl) as (_ & _ & _ & [Hb _]). exact Hb.
  - unfold sizeTracked in Hs. rewrite Hs. apply Hq.
Qed.

(** X5. Under an entries limit ([maxQueueEntries] other than -1), between
    two operations the queue holds at most [maxQueueEntries] messages (none
    when the limit is negative), and no batch has more than one message
    beyond that. *)
Theorem entries_limit_bounds_queue_and_batches
    (cfg : CookedHecConfig) (agent : nat) (ops : list ClientOp) :
  maxQueueEntries cfg <> -1 ->
  let c := run ops (newClient cfg agent) in
  Z.of_nat (length (queue c)) <= Z.max (maxQueueEntries cfg) 0
  /\ Forall (fun b => Z.of_nat (length b) <= Z.max (maxQueueEntries cfg) 0 + 1)
       (batches c).
Proof.
  intros Hm c. destruct (reachable_ok cfg agent ops) as [(_ & Hq & _ & Hf & Ht) Hcfg].
  fold c in Hq, Hf, Ht, Hcfg. rewrite Hcfg in *. split.
  - apply Hq, Hm.
  - apply batches_Forall; [exact Hf|]. intros h f Hl.
    destruct (Ht h f Hl) as (_ & _ & _ & [_ He]). exact (He Hm).
Qed.

(** X6. Between two operations the idle timer is armed exactly when the
    queue holds a message; when it fires, the whole queue goes out as one
    batch under a new handle and the queue is empty. *)
Theorem idle_timer_armed_iff_messages_queued
    (cfg : CookedHecConfig) (agent : nat) (ops : list ClientOp) :
  let c := run ops (newClient cfg agent) in
  (flushTimer c = None <-> queue c = [])
  /\ queue (timerFires c) = []
  /\ flushTimer (timerFires c) = None
  /\ (queue c <> [] ->
        batchOf (timerFires c) (nextHandle c) = Some (queue c)
        /\ nextHandle c ∈ activeFlushing (timerFires c)).
Proof.
  intros c. destruct (reachable_ok cfg agent ops) as [(_ & _ & Htm & _) _].
  fold c in Htm. unfold timerOk in Htm. split; [exact Htm|].
  unfold timerFires. destruct (flushTimer c) as [d|] eqn:Et.
  - split; [apply HecQueueSpec.flushInternal_queue|].
    split; [apply HecQueueSpec.flushInternal_flushTimer|].
    intros Hne. destruct (HecQueueSpec.flushInternal_dispatch c Hne)
      as (_ & Hb & Ha & _). split; [exact Hb|].
    rewrite Ha. apply elem_of_union_l, elem_of_singleton. reflexivity.
  - split; [apply Htm; reflexivity|]. split; [exact Et|].
    intros Hne. exfalso. apply Hne, Htm. reflexivity.
Qed.

Lemma sendToHec_resume_sent (c : HecClient) (ab : bool) (t : SendTask) (ev : Resume) :
  isSettled (phase t) = false ->
  (isFulfilled (phase (snd (sendToHec_resume c ab t ev))) = true ->
     counters (fst (sendToHec_resume c ab t ev))
     = addSent (counters c) (Z.of_nat (length (msgs t))) (rawBodySize t) (bodySize t))
  /\ (isFulfilled (phase (snd (sendToHec_resume c ab t ev))) = false ->
        sentMessages (counters (fst (sendToHec_resume c ab t ev)))
        = sentMessages (counters c)
        /\ sentBytes (counters (fst (sendToHec_resume c ab t ev)))
           = sentBytes (counters c)
        /\ transferredBytes (counters (fst (sendToHec_resume c ab t ev)))
           = transferredBytes (counters c)).
Proof.
  intros Hun. unfold sendToHec_resume, onError, afterBody.
  destruct (phase t) eqn:Ep, ev; simpl in *; try discriminate;
    repeat match goal with
           | |- context [if ?b then _ else _] => destruct b; simpl
           end;
    rewrite ?Ep; simpl; split; intros H; try discriminate; repeat split; reflexivity.
Qed.

(** X12. When a resumption makes the send behind a handle fulfil, the
    handle leaves the active set and the counters grow by that batch:
    [sentMessages] by its number of messages, [sentBytes] by the sum of
    their lengths, and without gzip [transferredBytes] by the same sum.
    Any other resumption leaves the three counters as they were. *)
Theorem fulfilled_flush_adds_its_batch_to_sent_counters
    (cfg : CookedHecConfig) (agent : nat) (ops : list ClientOp)
    (h : nat) (ev : Resume) :
  let c := run ops (newClient cfg agent) in
  let c' := resume c h ev in
  (negb (fulfilledAt c h) && fulfilledAt c' h = true ->
     exists b,
       batchOf c h = Some b
       /\ h ∈ activeFlushing c
       /\ (h ∉ activeFlushing c')
       /\ sentMessages (counters c') = sentMessages (counters c) + Z.of_nat (length b)
       /\ sentBytes (counters c') = sentBytes (counters c) + totalLength b
       /\ (gzip cfg = false ->
           transferredBytes (counters c')
           = transferredBytes (counters c) + totalLength b))
  /\ (negb (fulfilledAt c h) && fulfilledAt c' h = false ->
        sentMessages (counters c') = sentMessages (counters c)
        /\ sentBytes (counters c') = sentBytes (counters c)
        /\ transferredBytes (counters c') = transferredBytes (counters c)).
Proof.
  intros c. cbv zeta.
  destruct (reachable_ok cfg agent ops) as [(_ & _ & _ & [Hact _] & Ht) Hcfg].
  fold c in Hact, Ht, Hcfg.
  destruct (resume_spec c h ev) as [Hsame|(f & Hl & Hun & Hhs & Ha & _ & Hk)].
  - rewrite Hsame. split.
    + intros H. destruct (fulfilledAt c h); discriminate.
    + intros _. repeat split.
  - set (r := sendToHec_resume c (signalAborted f) (task f) ev) in *.
    destruct (sendToHec_resume_sent c (signalAborted f) (task f) ev Hun)
      as [Hyes Hno]. fold r in Hyes, Hno.
    assert (E0 : fulfilledAt c h = false).
    { unfold fulfilledAt, phaseOf. rewrite Hl. simpl.
      destruct (phase (task f)) as [| | |[]]; try reflexivity; discriminate. }
    assert (E1 : fulfilledAt (resume c h ev) h = isFulfilled (phase (snd r))).
    { unfold fulfilledAt, phaseOf. rewrite Hhs, lookup_insert_eq. reflexivity. }
    rewrite E0, E1. simpl. split.
    + intros Hful. exists (msgs (task f)).
      destruct (Ht h f Hl) as (_ & Hraw & Hz & _).
      split; [unfold batchOf; rewrite Hl; reflexivity|].
      split; [apply Hact; exists f; split; assumption|].
      assert (Hset : isSettled (phase (snd r)) = true).
      { destruct (phase (snd r)) as [| | |[]]; try discriminate; reflexivity. }
      rewrite Ha, Hset, Hk, (Hyes Hful). simpl.
      split.
      { intros Hin. apply elem_of_difference in Hin as [_ Hin].
        apply Hin, elem_of_singleton. reflexivity. }
      split; [reflexivity|]. split; [rewrite Hraw; reflexivity|].
      intros Hg. rewrite Hcfg in Hz. destruct (Hz Hg) as [-> _]. reflexivity.
    + intros Hnot. rewrite Hk. exact (Hno Hnot).
Qed.

End Kept.

(* --------------------------------------------------------------------- *)
(** *** flush and shutdown *)
(* --------------------------------------------------------------------- *)

(** X7. The promises [flush] waits for are those of the flushes active
    once it has dispatched the queue: every flush in flight before the
    call and the one the call starts, and no other flush handle. *)
Theorem flush_awaits_exactly_the_active_flushes (c : HecClient) (h : nat) :
  PromiseOf h ∈ snd (flush c) <-> h ∈ activeFlushing (fst (flush c)).
Proof.
  unfold flush. destruct (flushInternal c) as [c' p] eqn:Ef. simpl.
  assert (Hc' : c' = fst (flushInternal c)) by (rewrite Ef; reflexivity).
  assert (Hp : p = snd (flushInternal c)) by (rewrite Ef; reflexivity).
  rewrite elem_of_app, list_elem_of_fmap, list_elem_of_singleton.
  assert (Hold : (exists y, PromiseOf h = PromiseOf y /\ y ∈ elements (activeFlushing c))
                 <-> h ∈ activeFlushing c).
  { split.
    - intros (y & Hy & Hin). inversion Hy; subst y. apply elem_of_elements, Hin.
    - intros Hin. exists h. split; [reflexivity|apply elem_of_elements, Hin]. }
  rewrite Hold. destruct (queue c) as [|m q] eqn:Eq.
  - destruct (HecQueueSpec.flushInternal_empty_flushes c Eq) as (Ha & _).
    rewrite Hc', Ha, Hp.
    destruct (HecQueueSpec.flushInternal_empty c Eq) as [-> | ->]; simpl;
      split; try tauto; intros [H|H]; [exact H|discriminate|exact H|discriminate].
  - assert (Hne : queue c <> []) by (rewrite Eq; discriminate).
    destruct (HecQueueSpec.flushInternal_dispatch c Hne) as (Hpr & _ & Ha & _).
    rewrite Hc', Ha, Hp, Hpr, elem_of_union, elem_of_singleton. split.
    + intros [H|H]; [right; exact H|left; inversion H; reflexivity].
    + intros [H|H]; [right; rewrite H; reflexivity|left; exact H].
Qed.

Lemma size_pos_iff (X : gset nat) : (0 <? size X)%nat = true <-> X <> ∅.
Proof.
  rewrite Nat.ltb_lt. split.
  - intros Hpos ->. rewrite size_empty in Hpos. lia.
  - intros Hne. destruct (size X) eqn:Es; [|lia].
    exfalso. apply Hne. apply size_empty_iff in Es. apply leibniz_equiv, Es.
Qed.

Lemma length_pos_iff {A : Type} (q : list A) : (0 <? length q)%nat = true <-> q <> [].
Proof.
  destruct q as [|x q]; simpl.
  - split; [discriminate|]. intros H. contradiction.
  - split; [intros _; discriminate|reflexivity].
Qed.

Lemma shutdown_finish_lookup (c : HecClient) (h : nat) :
  flushHandles (shutdown_finish c) !! h
  = if decide (h ∈ activeFlushing c) then cancel <$> flushHandles c !! h
    else flushHandles c !! h.
Proof.
  unfold shutdown_finish. destruct (0 <? size (activeFlushing c))%nat eqn:Es.
  - apply HecSendSpec.cancelAll_lookup.
  - destruct (decide (h ∈ activeFlushing c)) as [Hin|_]; [|reflexivity].
    exfalso. assert (Hne : activeFlushing c <> ∅).
    { intros He. rewrite He in Hin. exact (not_elem_of_empty h Hin). }
    apply size_pos_iff in Hne. congruence.
Qed.

Section Shutdown.

Context {Event Metric MetricsRest MetricValue : Type}.
Variable serializeEvent : Event -> JsVal -> JsVal -> SerializedHecMsg.
Variable serializeMetric : Metric -> JsVal -> JsVal -> SerializedHecMsg.
Variable serializeMetrics :
  MultiMetrics MetricsRest MetricValue -> JsVal -> JsVal -> SerializedHecMsg.
Variable mkMetric : MetricsRest -> string -> MetricValue -> Metric.

Local Abbreviation run :=
  (clientExec serializeEvent serializeMetric serializeMetrics mkMetric).
Local Abbreviation ClientOp := (Hec.ClientOp Event Metric MetricsRest MetricValue).

(** X13. [shutdown] turns the client inactive.  It waits exactly when it
    is given a [maxTime] and a flush is active or a message queued: it has
    then dispatched the queue and cancelled nothing yet.  Otherwise, so
    always without [maxTime], it does not flush: the queue and the idle
    timer stay as they are, and every active flush is cancelled at once. *)
Theorem shutdown_flushes_and_waits_or_cancels_at_once
    (cfg : CookedHecConfig) (agent : nat) (ops : list ClientOp)
    (maxTime : option Z) :
  let c := run ops (newClient cfg agent) in
  let c' := fst (shutdown c maxTime) in
  let waits := snd (shutdown c maxTime) in
  active c' = false
  /\ (waits = true <-> maxTime <> None /\ (activeFlushing c <> ∅ \/ queue c <> []))
  /\ (waits = true ->
        queue c' = []
        /\ (queue c <> [] -> batchOf c' (nextHandle c) = Some (queue c))
        /\ (forall h f, flushHandles c !! h = Some f -> flushHandles c' !! h = Some f))
  /\ (waits = false ->
        queue c' = queue c
        /\ flushTimer c' = flushTimer c
        /\ (forall h f, flushHandles c !! h = Some f ->
              flushHandles c' !! h
              = Some (if decide (h ∈ activeFlushing c) then cancel f else f))).
Proof.
  intros c. cbv zeta.
  destruct (reachable_ok serializeEvent serializeMetric serializeMetrics mkMetric
              cfg agent ops) as [(_ & _ & _ & [_ Hdom] & _) _].
  fold c in Hdom.
  split; [apply HecQueueSpec.shutdown_active|].
  set (c0 := setActive c false).
  assert (Hfin : queue (shutdown_finish c0) = queue c
                 /\ flushTimer (shutdown_finish c0) = flushTimer c
                 /\ (forall h f, flushHandles c !! h = Some f ->
                       flushHandles (shutdown_finish c0) !! h
                       = Some (if decide (h ∈ activeFlushing c) then cancel f else f))).
  { destruct (HecQueueSpec.shutdown_finish_sameQueueing c0) as (Hq & _ & _ & _ & Ht).
    split; [exact Hq|]. split; [exact Ht|].
    intros h f Hf. rewrite shutdown_finish_lookup.
    change (activeFlushing c0) with (activeFlushing c).
    change (flushHandles c0) with (flushHandles c). rewrite Hf.
    destruct (decide (h ∈ activeFlushing c)); reflexivity. }
  unfold shutdown. fold c0.
  destruct maxTime as [ms|].
  - destruct ((0 <? size (activeFlushing c0))%nat || (0 <? length (queue c0))%nat)
      eqn:Ep; simpl.
    + split.
      { split; [intros _|reflexivity]. split; [discriminate|].
        apply orb_true_iff in Ep as [Ep|Ep];
          [left; apply size_pos_iff, Ep|right; apply length_pos_iff, Ep]. }
      split; [|discriminate]. intros _.
      rewrite HecQueueSpec.flush_state.
      split; [apply HecQueueSpec.flushInternal_queue|]. split.
      * intros Hne. apply (HecQueueSpec.flushInternal_dispatch c0 Hne).
      * intros h f Hf. destruct (queue c0) as [|m q] eqn:Eq.
        -- destruct (HecQueueSpec.flushInternal_empty_flushes c0 Eq) as (_ & -> & _).
           exact Hf.
        -- assert (Hne : queue c0 <> []) by (rewrite Eq; discriminate).
           destruct (HecQueueSpec.flushInternal_dispatch c0 Hne) as (_ & _ & _ & _ & Ho).
           rewrite Ho; [exact Hf|].
           assert (Hlt : (h < nextHandle c)%nat) by (apply Hdom; eexists; exact Hf).
           change (nextHandle c0) with (nextHandle c). lia.
    + split.
      { split; [discriminate|]. intros [_ Hpend]. exfalso.
        apply orb_false_iff in Ep as [E1 E2].
        change (activeFlushing c0) with (activeFlushing c) in E1.
        change (queue c0) with (queue c) in E2.
        destruct Hpend as [Hp|Hp];
          [apply size_pos_iff in Hp|apply length_pos_iff in Hp]; congruence. }
      split; [discriminate|]. intros _. exact Hfin.
  - simpl. split.
    { split; [discriminate|]. intros [Hm _]. contradiction. }
    split; [discriminate|]. intros _. exact Hfin.
Qed.

(** X17. Called while nothing is queued, [flush] dispatches nothing and
    leaves the client exactly as it is; it waits for the flushes already
    active and for a promise that is already resolved. *)
Theorem flush_of_an_empty_queue_dispatches_nothing
    (cfg : CookedHecConfig) (agent : nat) (ops : list ClientOp) :
  let c := run ops (newClient cfg agent) in
  queue c = [] ->
  fst (flush c) = c
  /\ snd (flush c) = map PromiseOf (elements (activeFlushing c)) ++ [AlreadyResolved].
Proof.
  intros c Hq.
  destruct (reachable_ok serializeEvent serializeMetric serializeMetrics mkMetric
              cfg agent ops) as [(_ & _ & Htm & _) _].
  fold c in Htm. apply Htm in Hq as Ht.
  unfold flush, flushInternal. rewrite Ht, Hq. split; reflexivity.
Qed.

End Shutdown.

(* --------------------------------------------------------------------- *)
(** *** Sending: retries within the cap, failed compression *)
(* --------------------------------------------------------------------- *)

(** X8. A send at the start of an attempt whose next attempts fail, all
    of them numbered within [maxRetries], each followed by its sleep, and
    whose attempt after those is answered with a 2xx, the signal never
    aborted: the promise fulfils; [errorCount] and [retryCount] have both
    grown by the number of failures, and the sent counters by the batch. *)
Theorem send_succeeds_after_failures_within_maxRetries
    (c : HecClient) (t : SendTask) (fails : list Resume) (status duration : Z) :
  phase t = AwaitFetch ->
  fails = [] \/ attempt t + Z.of_nat (length fails) - 1 <= maxRetries (config c) ->
  forallb failedAttempt fails = true ->
  responseOk status = true ->
  let r := runSend c t (retries fails ++ [Responded status duration]) in
  phase (snd r) = Settled (Fulfilled tt)
  /\ attempt (snd r) = attempt t + Z.of_nat (length fails)
  /\ errorCount (counters (fst r)) = errorCount (counters c) + Z.of_nat (length fails)
  /\ retryCount (counters (fst r)) = retryCount (counters c) + Z.of_nat (length fails)
  /\ sentMessages (counters (fst r))
     = sentMessages (counters c) + Z.of_nat (length (msgs t))
  /\ sentBytes (counters (fst r)) = sentBytes (counters c) + rawBodySize t
  /\ transferredBytes (counters (fst r)) = transferredBytes (counters c) + bodySize t.
Proof.
  revert c t. induction fails as [|f fails IH]; intros c t Hp Hcap Hall Hok; cbv zeta.
  - simpl. destruct (HecSendSpec.responded_ok c t status duration Hp Hok) as [Hk Ht].
    destruct (sendToHec_resume c false t (Responded status duration)) as [c1 t1].
    simpl in *. rewrite Hk, Ht. simpl. repeat split; lia.
  - simpl in Hall. apply andb_true_iff in Hall as [Hf Hall].
    destruct Hcap as [Hnil|Hcap]; [discriminate|]. simpl length in Hcap.
    assert (Hle : attempt t <= maxRetries (config c)) by lia.
    pose proof (HecSendSpec.retry_round c t f Hp Hf Hle) as R. cbv zeta in R.
    destruct R as (Hk & Hcfg & Ht & _).
    change (retries (f :: fails) ++ [Responded status duration])
      with ([f; Slept] ++ (retries fails ++ [Responded status duration])).
    rewrite HecSendSpec.runSend_app.
    set (c1 := fst (runSend c t [f; Slept])) in *.
    set (t1 := snd (runSend c t [f; Slept])) in *.
    assert (Hp1 : phase t1 = AwaitFetch) by (rewrite Ht; reflexivity).
    assert (Ha1 : attempt t1 = attempt t + 1) by (rewrite Ht; reflexivity).
    assert (Hcap1 : fails = []
                    \/ attempt t1 + Z.of_nat (length fails) - 1
                       <= maxRetries (config c1)).
    { right. rewrite Ha1, Hcfg. lia. }
    specialize (IH c1 t1 Hp1 Hcap1 Hall Hok). cbv zeta in IH.
    destruct IH as (H1 & H2 & H3 & H4 & H5 & H6 & H7).
    rewrite H1, H2, H3, H4, H5, H6, H7, Ha1, Hk, Ht. simpl.
    repeat split; lia.
Qed.

(** X9. Under gzip a flush first waits for the compression.  When that
    fails, the promise of the flush is rejected with the error of the
    compression and the handle leaves the active set; no request was made,
    no error counted, no batch size recorded, and the batch, which left the
    queue, is not retried. *)
Theorem failed_compression_rejects_the_flush (c : HecClient) (e : JsVal) :
  gzip (config c) = true ->
  queue c <> [] ->
  let h := nextHandle c in
  let c1 := fst (flushInternal c) in
  let c2 := resume c1 h (CompressFailed e) in
  phaseOf c1 h = Some AwaitCompress
  /\ phaseOf c2 h = Some (Settled (Rejected e))
  /\ (h ∉ activeFlushing c2)
  /\ counters c2 = counters c
  /\ aggregates c2 = aggregates c
  /\ queue c2 = []
  /\ batchOf c2 h = Some (queue c).
Proof.
  intros Hg Hq. cbv zeta.
  destruct (flushInternal_new_handle c Hq) as (t & Hhs & Hm & _ & _ & Hph).
  rewrite Hg in Hph.
  destruct (HecQueueSpec.flushInternal_dispatch c Hq) as (_ & _ & Ha & _).
  set (c1 := fst (flushInternal c)) in *.
  assert (Hl : flushHandles c1 !! nextHandle c
               = Some {| task := t; signalAborted := false |})
    by (rewrite Hhs; apply lookup_insert_eq).
  assert (Hagg : aggregates c1 = aggregates c /\ counters c1 = counters c).
  { unfold c1, flushInternal, sendToHec.
    destruct (flushTimer c); simpl; destruct (queue c); try congruence;
      simpl; rewrite Hg; split; reflexivity. }
  assert (Hres : resume c1 (nextHandle c) (CompressFailed e)
                 = setFlushes c1 (activeFlushing c1 ∖ {[nextHandle c]})
                     (<[nextHandle c :=
                          {| task := setPhase t (Settled (Rejected e));
                             signalAborted := false |}]> (flushHandles c1))
                     (nextHandle c1)).
  { unfold resume. rewrite Hl. simpl. rewrite Hph.
    unfold sendToHec_resume. rewrite Hph. reflexivity. }
  split; [unfold phaseOf; rewrite Hl; simpl; rewrite Hph; reflexivity|].
  rewrite Hres. unfold phaseOf, batchOf. simpl. rewrite lookup_insert_eq. simpl.
  split; [reflexivity|]. split.
  { intros Hin. apply elem_of_difference in Hin as [_ Hin].
    apply Hin, elem_of_singleton. reflexivity. }
  destruct Hagg as [-> ->]. split; [reflexivity|]. split; [reflexivity|].
  split; [apply HecQueueSpec.flushInternal_queue|]. rewrite Hm. reflexivity.
Qed.

End HecRunsSpec.

(* ===================================================================== *)
(** ** More on clone *)
(* ===================================================================== *)

Module HecCloneRunsSpec.
Import Hec.

Section CloneRuns.

Variable isEmptyValue : JsVal -> bool.
Variable deepMerge : CookedHecConfig -> list (string * JsVal) -> list (string * JsVal).
Variable parseHecConfig : list (string * JsVal) -> Outcome CookedHecConfig.

Local Abbreviation clone := (Hec.clone isEmptyValue deepMerge parseHecConfig).

(** X10. Whenever [clone] returns, every client of the store is as it
    was.  Either the client returned is the one cloned and nothing was
    created, or it is a new client that starts like any newly constructed
    one: active, with an empty queue, no timer, no flush and zeroed
    counters, whatever the cloned client had queued or in flight and
    whether or not it had been shut down. *)
Theorem clone_builds_a_fresh_client_and_leaves_the_others
    (s s' : Store) (this r : nat) (c : HecClient)
    (o : option (list (string * JsVal))) :
  storeOk s ->
  clients s !! this = Some c ->
  clone s this c o = Returns (s', r) ->
  (forall r0 c0, clients s !! r0 = Some c0 -> clients s' !! r0 = Some c0)
  /\ ((r = this /\ s' = s)
      \/ (r = nextClient s
          /\ r <> this
          /\ clients s !! r = None
          /\ exists c',
               clients s' !! r = Some c'
               /\ active c' = true
               /\ queue c' = []
               /\ queueSizeBytes c' = 0
               /\ flushTimer c' = None
               /\ activeFlushing c' = ∅
               /\ flushHandles c' = ∅
               /\ counters c' = initialCounters
               /\ aggregates c' = newAggregates)).
Proof.
  intros Hok Hthis Hc.
  assert (Hfresh : clients s !! nextClient s = None).
  { destruct (clients s !! nextClient s) as [k|] eqn:Ek; [|reflexivity].
    destruct (Hok _ _ Ek). lia. }
  assert (Hne : nextClient s <> this) by (destruct (Hok _ _ Hthis); lia).
  unfold Hec.clone in Hc.
  destruct o as [o|]; [|inversion Hc; subst; split; [auto|left; auto]].
  destruct (length (keys (removeEmtpyValues isEmptyValue o)) =? 0)%nat;
    [inversion Hc; subst; split; [auto|left; auto]|].
  unfold construct in Hc.
  destruct (parseHecConfig (deepMerge (config c) o)) as [cfg|e];
    [|destruct (truthy _ && differsFrom _ _); discriminate].
  assert (Hkeep : forall (m : gmap nat HecClient) r0 c0,
             clients s !! r0 = Some c0 -> r0 <> nextClient s).
  { intros m r0 c0 H0 ->. rewrite Hfresh in H0. discriminate. }
  destruct (truthy (getProp "url" o) && differsFrom (getProp "url" o) (url (config c)));
    inversion Hc; subst s' r; simpl.
  - split.
    + intros r0 c0 H0. rewrite lookup_insert_ne; [exact H0|].
      intros Heq. exact (Hkeep ∅ r0 c0 H0 (eq_sym Heq)).
    + right. split; [reflexivity|]. split; [exact Hne|]. split; [exact Hfresh|].
      eexists. split; [apply lookup_insert_eq|]. repeat split.
  - split.
    + intros r0 c0 H0. pose proof (Hkeep ∅ r0 c0 H0) as Hr0.
      rewrite lookup_alter_ne by congruence.
      rewrite lookup_insert_ne by congruence. exact H0.
    + right. split; [reflexivity|]. split; [exact Hne|]. split; [exact Hfresh|].
      eexists. split; [rewrite lookup_alter_eq, lookup_insert_eq; reflexivity|].
      repeat split.
Qed.

End CloneRuns.

End HecCloneRunsSpec.

(* ===================================================================== *)
(** ** More on the abort handle *)
(* ===================================================================== *)

Module AbortHandleRunsSpec.
Import AsyncTasks AbortHandleRuns.


Lemma membersPending_step (h : AbortHandle) (op : Op) :
  consistent h -> membersPending h -> membersPending (step h op).
Proof.
  intros (Hsub & Hlt & _) [Hmem Hrun]. destruct op as [| |tok outcome]; simpl.
  - split.
    + intros tok Hin. exfalso. exact (not_elem_of_empty tok Hin).
    + discriminate.
  - unfold withAbort. destruct (aborted h) eqn:Ea; simpl.
    + split; [exact Hmem|]. rewrite Ea. discriminate.
    + split; simpl.
      * intros tok Hin. apply elem_of_union in Hin as [Hin|Hin].
        -- apply elem_of_singleton in Hin. subst tok. apply lookup_insert_eq.
        -- rewrite lookup_insert_ne; [exact (Hmem tok Hin)|].
           intros Heq. subst tok. apply Hsub, Hlt in Hin. lia.
      * intros _. rewrite (Hrun eq_refl). reflexivity.
  - destruct (decide (tok ∈ running h)); [|split; assumption]. split; simpl.
    + intros x Hin. apply elem_of_difference in Hin as [Hin _]. exact (Hmem x Hin).
    + intros Ha. rewrite (Hrun Ha). reflexivity.
Qed.

Lemma membersPending_exec (ops : list Op) (h : AbortHandle) :
  consistent h -> membersPending h ->
  consistent (exec ops h) /\ membersPending (exec ops h).
Proof.
  revert h. induction ops as [|op ops IH]; intros h Hc Hm; [split; assumption|].
  rewrite AbortHandleSpec.exec_cons. apply IH.
  - apply AbortHandleSpec.consistent_step, Hc.
  - apply membersPending_step; assumption.
Qed.

Lemma reachable_handle (ops : list Op) :
  consistent (exec ops newAbortHandle) /\ membersPending (exec ops newAbortHandle).
Proof.
  apply membersPending_exec; [apply AbortHandleSpec.consistent_new|].
  split; [|reflexivity]. intros tok Hin. exfalso. exact (not_elem_of_empty tok Hin).
Qed.


(** X15. Until a handle is aborted its set holds exactly the tokens of the
    closures that are running, so [size] is their number; once it is
    aborted the set is empty and [size] is 0. *)
Theorem size_counts_the_running_closures (ops : list Op) :
  let h := exec ops newAbortHandle in
  (aborted h = false -> handles h = running h /\ size_ h = size (running h))
  /\ (aborted h = true -> handles h = ∅ /\ size_ h = 0%nat).
Proof.
  intros h. destruct (reachable_handle ops) as [(_ & _ & Hempty) [_ Hrun]].
  fold h in Hempty, Hrun. split.
  - intros Ha. unfold size_. rewrite (Hrun Ha). split; reflexivity.
  - intros Ha. unfold size_. rewrite (Hempty Ha). split; [reflexivity|apply size_empty].
Qed.

Lemma inert_step (h : AbortHandle) (op : Op) :
  aborted h = true -> handles h = ∅ ->
  aborted (step h op) = true
  /\ handles (step h op) = ∅
  /\ store (step h op) = store h
  /\ nextRef (step h op) = nextRef h
  /\ invoked (step h op) = invoked h.
Proof.
  intros Ha He. destruct op as [| |tok outcome]; simpl.
  - rewrite He, set_fold_empty. repeat split.
  - unfold withAbort. rewrite Ha. simpl. repeat split; assumption.
  - destruct (decide (tok ∈ running h)); simpl; repeat split; try assumption.
    rewrite He. apply empty_difference_L.
Qed.

(** X16. An aborted handle stays as [abort] left it: whatever is called
    on it afterwards, the set stays empty, no token is created or changed
    and no closure is invoked.  In particular a second [abort] changes
    nothing. *)
Theorem aborted_handle_is_inert (h : AbortHandle) (ops : list Op) :
  aborted (exec ops (abort h)) = true
  /\ handles (exec ops (abort h)) = ∅
  /\ store (exec ops (abort h)) = store (abort h)
  /\ nextRef (exec ops (abort h)) = nextRef h
  /\ invoked (exec ops (abort h)) = invoked h
  /\ abort (abort h) = abort h.
Proof.
  assert (H : forall l k, aborted k = true -> handles k = ∅ ->
              aborted (exec l k) = true /\ handles (exec l k) = ∅
              /\ store (exec l k) = store k /\ nextRef (exec l k) = nextRef k
              /\ invoked (exec l k) = invoked k).
  { intros l. induction l as [|op l IH]; intros k Ha He; [repeat split; assumption|].
    rewrite AbortHandleSpec.exec_cons.
    destruct (inert_step k op Ha He) as (Ha1 & He1 & Hs1 & Hn1 & Hi1).
    destruct (IH (step k op) Ha1 He1) as (H1 & H2 & H3 & H4 & H5).
    rewrite H3, H4, H5, Hs1, Hn1, Hi1. repeat split; assumption. }
  destruct (H ops (abort h) eq_refl eq_refl) as (H1 & H2 & H3 & H4 & H5).
  split; [exact H1|]. split; [exact H2|]. split; [exact H3|].
  split; [exact H4|]. split; [exact H5|].
  unfold abort at 1. simpl. rewrite set_fold_empty. reflexivity.
Qed.

End AbortHandleRunsSpec.

(* ===================================================================== *)
(** ** More worked examples *)
(* ===================================================================== *)

Module RunExamples.
Import Hec HecRuns.

(** [sampleOps] on a new client: the five messages accepted before the
    shutdown are the first batch of four and the queue of one, in the
    order of the pushes; the push after the shutdown is not among them. *)
Lemma sample_run_messages :
  let c := clientExec sampleEvent sampleMetric sampleMetrics sampleMkMetric
             sampleOps (newClient sampleConfig 0) in
  batches c = [[msgHello; msgAbc; msgAbc; msgAbc]]
  /\ queue c = [msgHello]
  /\ accepted sampleEvent sampleMetric sampleMetrics sampleMkMetric
       sampleConfig true sampleOps
     = [msgHello; msgAbc; msgAbc; msgAbc; msgHello]
  /\ elements (activeFlushing c) = []
  /\ fulfilledAt c 0 = true
  /\ sentMessages (counters c) = 4
  /\ sentBytes (counters c) = 14.
Proof. cbv zeta. repeat split; vm_compute; reflexivity. Qed.

Lemma entries_limit_bounds_queue_and_batches_witness :
  let cfg := sampleConfigWith 2 512000 3 in
  let c := clientExec sampleEvent sampleMetric sampleMetrics sampleMkMetric
             sampleOps (newClient cfg 0) in
  maxQueueEntries cfg <> -1
  /\ Z.of_nat (length (queue c)) <= 2
  /\ Forall (fun b => Z.of_nat (length b) <= 3) (batches c).
Proof.
  cbv zeta.
  assert (H : maxQueueEntries (sampleConfigWith 2 512000 3) <> -1)
    by (vm_compute; discriminate).
  split; [exact H|].
  exact (HecRunsSpec.entries_limit_bounds_queue_and_batches
           sampleEvent sampleMetric sampleMetrics sampleMkMetric
           (sampleConfigWith 2 512000 3) 0 sampleOps H).
Defined.


Lemma send_succeeds_after_failures_within_maxRetries_witness :
  let c := fst (sendToHec sampleClient [msgHello; msgAbc]) in
  let t := snd (sendToHec sampleClient [msgHello; msgAbc]) in
  let fails := [Responded 500 3; FetchFailed (JErr "ECONNRESET"); Responded 429 2] in
  let r := runSend c t (retries fails ++ [Responded 204 5]) in
  (phase t = AwaitFetch
   /\ attempt t + Z.of_nat (length fails) - 1 <= maxRetries (config c)
   /\ forallb failedAttempt fails = true
   /\ responseOk 204 = true)
  /\ phase (snd r) = Settled (Fulfilled tt)
  /\ attempt (snd r) = 4
  /\ errorCount (counters (fst r)) = 3
  /\ retryCount (counters (fst r)) = 3
  /\ sentMessages (counters (fst r)) = 2
  /\ sentBytes (counters (fst r)) = 8
  /\ transferredBytes (counters (fst r)) = 8.
Proof.
  cbv zeta.
  assert (H1 : phase (snd (sendToHec sampleClient [msgHello; msgAbc])) = AwaitFetch)
    by reflexivity.
  assert (H2 : attempt (snd (sendToHec sampleClient [msgHello; msgAbc]))
               + Z.of_nat (length [Responded 500 3; FetchFailed (JErr "ECONNRESET");
                                   Responded 429 2]) - 1
               <= maxRetries (config (fst (sendToHec sampleClient [msgHello; msgAbc]))))
    by (vm_compute; discriminate).
  split; [split; [exact H1|split; [exact H2|split; reflexivity]]|].
  exact (HecRunsSpec.send_succeeds_after_failures_within_maxRetries
           _ _ [Responded 500 3; FetchFailed (JErr "ECONNRESET"); Responded 429 2]
           204 5 H1 (or_intror H2) eq_refl eq_refl).
Defined.

Lemma failed_compression_rejects_the_flush_witness :
  let c := stateOf (pushSerializedMsg (newClient sampleGzipConfig 0) msgHello) in
  let c2 := resume (fst (flushInternal c)) 0 (CompressFailed (JErr "zlib: out of memory")) in
  (gzip (config c) = true /\ queue c <> [])
  /\ phaseOf c2 0 = Some (Settled (Rejected (JErr "zlib: out of memory")))
  /\ (0%nat ∉ activeFlushing c2)
  /\ errorCount (counters c2) = 0
  /\ queue c2 = []
  /\ batchOf c2 0 = Some [msgHello].
Proof.
  cbv zeta.
  assert (H1 : gzip (config (stateOf (pushSerializedMsg (newClient sampleGzipConfig 0)
                                        msgHello))) = true) by reflexivity.
  assert (H2 : queue (stateOf (pushSerializedMsg (newClient sampleGzipConfig 0) msgHello))
               <> []) by (vm_compute; discriminate).
  split; [split; [exact H1|exact H2]|].
  destruct (HecRunsSpec.failed_compression_rejects_the_flush _
              (JErr "zlib: out of memory") H1 H2)
    as (_ & Hp & Hn & Hk & _ & Hq & Hb).
  split; [exact Hp|]. split; [exact Hn|].
  split; [exact (f_equal errorCount Hk)|]. split; [exact Hq|exact Hb].
Defined.

Lemma busyStore_ok : storeOk busyStore.
Proof.
  intros r c H. unfold busyStore in H; simpl in H.
  apply lookup_singleton_Some in H as [<- <-]. split; vm_compute; lia.
Defined.

(** [busyClient] is shut down and has a message queued; its clone under
    another user agent is active and has none. *)
Lemma clone_builds_a_fresh_client_and_leaves_the_others_witness :
  let o := [("url", JStr (url sampleConfig)); ("userAgent", JStr "other")] in
  (storeOk busyStore
   /\ clients busyStore !! 0%nat = Some busyClient
   /\ active busyClient = false
   /\ queue busyClient = [msgHello])
  /\ match clone sampleIsEmpty sampleMerge sampleParse busyStore 0 busyClient (Some o) with
     | Returns (s', r) =>
         clients s' !! 0%nat = Some busyClient
         /\ r = 1%nat
         /\ exists c', clients s' !! r = Some c' /\ active c' = true /\ queue c' = []
     | Throws _ => False
     end.
Proof.
  cbv zeta.
  assert (H1 : clients busyStore !! 0%nat = Some busyClient) by reflexivity.
  split; [split; [exact busyStore_ok|split; [exact H1|split; reflexivity]]|].
  destruct (clone sampleIsEmpty sampleMerge sampleParse busyStore 0 busyClient
              (Some [("url", JStr (url sampleConfig)); ("userAgent", JStr "other")]))
    as [[s' r]|e] eqn:Ec; [|vm_compute in Ec; discriminate].
  destruct (HecCloneRunsSpec.clone_builds_a_fresh_client_and_leaves_the_others
              sampleIsEmpty sampleMerge sampleParse busyStore s' 0 r busyClient _
              busyStore_ok H1 Ec) as [Hkeep [[Hr Hs]|(Hr & _ & _ & c' & Hl & Ha & Hq & _)]].
  - exfalso. subst r s'. vm_compute in Ec. discriminate.
  - split; [exact (Hkeep 0%nat busyClient H1)|]. split; [exact Hr|].
    exists c'. split; [exact Hl|]. split; [exact Ha|exact Hq].
Defined.

Lemma flush_of_an_empty_queue_dispatches_nothing_witness :
  let c := clientExec sampleEvent sampleMetric sampleMetrics sampleMkMetric
             [OpPushEvent tt; OpTimerFires] (newClient sampleConfig 0) in
  queue c = []
  /\ fst (flush c) = c
  /\ snd (flush c) = [PromiseOf 0; AlreadyResolved].
Proof.
  cbv zeta.
  assert (H : queue (clientExec sampleEvent sampleMetric sampleMetrics sampleMkMetric
                       [OpPushEvent tt; OpTimerFires] (newClient sampleConfig 0)) = [])
    by reflexivity.
  split; [exact H|].
  exact (HecRunsSpec.flush_of_an_empty_queue_dispatches_nothing
           sampleEvent sampleMetric sampleMetrics sampleMkMetric
           sampleConfig 0 [OpPushEvent tt; OpTimerFires] H).
Defined.

End RunExamples.
